(** * adrg/check: the comparison engine and the validation functions

    A shallow embedding of the Go package [check]: the coercion layer
    and the emptiness primitive, the comparison engine, the runner, the
    validation functions and the string helpers, followed by the
    properties of its specification that were checked against it.

    Go values passed as [interface{}] are embedded as a tagged union
    ([value]) that keeps what the package inspects through [reflect]: the
    kind, the dynamic type, the payload, and the identity of reference
    values (pointers, slices, maps, channels, functions).  Errors are kept
    as the unevaluated [errors.New] / [fmt.Errorf] call, so that the
    template and the operands of a message can be read back. *)

From Stdlib Require Import ZArith List Bool Ascii String Lia.
From Stdlib Require Import Floats.SpecFloat.
Import ListNotations.

Local Open Scope string_scope.
Local Open Scope Z_scope.

Set Warnings "-register-all".

(** ** Go's runtime kinds and types *)

(** [reflect.Kind]. *)
Inductive Kind : Type :=
| Invalid | KBool
| Int | Int8 | Int16 | Int32 | Int64
| Uint | Uint8 | Uint16 | Uint32 | Uint64 | Uintptr
| Float32 | Float64
| Complex64 | Complex128
| KArray | KChan | KFunc | KInterface | KMap | KPtr | KSlice | KString
| KStruct | UnsafePointer.

(** The widths of the three numeric families. *)
Inductive intKind : Type := I0 | I8 | I16 | I32 | I64.
Inductive uintKind : Type := U0 | U8 | U16 | U32 | U64 | UPtr.
Inductive floatKind : Type := F32 | F64.

Definition intKind_eqb (a b : intKind) : bool :=
  match a, b with
  | I0, I0 | I8, I8 | I16, I16 | I32, I32 | I64, I64 => true
  | _, _ => false
  end.

Definition uintKind_eqb (a b : uintKind) : bool :=
  match a, b with
  | U0, U0 | U8, U8 | U16, U16 | U32, U32 | U64, U64 | UPtr, UPtr => true
  | _, _ => false
  end.

Definition floatKind_eqb (a b : floatKind) : bool :=
  match a, b with
  | F32, F32 | F64, F64 => true
  | _, _ => false
  end.

(** [reflect.Type]: the dynamic type of a value.  A struct type is its
    declared name with the types of its fields; [TTime] is [time.Time]. *)
Inductive gotype : Type :=
| TBool
| TInt (k : intKind)
| TUint (k : uintKind)
| TFloat (k : floatKind)
| TString
| TInterface
| TTime
| TStruct (name : string) (fields : list gotype)
| TArray (len : nat) (elem : gotype)
| TSlice (elem : gotype)
| TMap (key elem : gotype)
| TPtr (elem : gotype)
| TChan (elem : gotype)
| TFunc (signature : string).

(** Two lists agree pairwise under [f] and have the same length. *)
Definition forall2b {A : Type} (f : A -> A -> bool) : list A -> list A -> bool :=
  fix go (l r : list A) {struct l} : bool :=
    match l, r with
    | [], [] => true
    | a :: l', b :: r' => f a b && go l' r'
    | _, _ => false
    end.

(** Identity of types, [t1 == t2] on [reflect.Type]. *)
Fixpoint gotype_eqb (t u : gotype) {struct t} : bool :=
  match t, u with
  | TBool, TBool => true
  | TInt a, TInt b => intKind_eqb a b
  | TUint a, TUint b => uintKind_eqb a b
  | TFloat a, TFloat b => floatKind_eqb a b
  | TString, TString => true
  | TInterface, TInterface => true
  | TTime, TTime => true
  | TStruct n fs, TStruct m gs =>
      String.eqb n m && forall2b gotype_eqb fs gs
  | TArray n a, TArray m b => Nat.eqb n m && gotype_eqb a b
  | TSlice a, TSlice b => gotype_eqb a b
  | TMap k a, TMap l b => gotype_eqb k l && gotype_eqb a b
  | TPtr a, TPtr b => gotype_eqb a b
  | TChan a, TChan b => gotype_eqb a b
  | TFunc s, TFunc r => String.eqb s r
  | _, _ => false
  end.

(** ** Timestamps

    [time.Time], at the level of the documentation of package [time]: an
    instant (seconds and nanoseconds since the zero time, January 1 of
    year 1 UTC) and a location used only for display.  A [nil] location
    is UTC.  Monotonic clock readings are not modelled. *)
Record Location : Type := mkLocation { zone : string; offset : Z }.

Record Time : Type := mkTime { sec : Z; nsec : Z; loc : option Location }.

Definition Location_eqb (a b : Location) : bool :=
  String.eqb (zone a) (zone b) && Z.eqb (offset a) (offset b).

(** [t.Equal(u)]: the same instant, whatever the locations. *)
Definition Time_Equal (t u : Time) : bool :=
  Z.eqb (sec t) (sec u) && Z.eqb (nsec t) (nsec u).

(** [t.Before(u)]. *)
Definition Time_Before (t u : Time) : bool :=
  Z.ltb (sec t) (sec u) || (Z.eqb (sec t) (sec u) && Z.ltb (nsec t) (nsec u)).

(** [t.After(u)]. *)
Definition Time_After (t u : Time) : bool :=
  Z.gtb (sec t) (sec u) || (Z.eqb (sec t) (sec u) && Z.gtb (nsec t) (nsec u)).

(** [t.In(loc)]: the same instant displayed in another location. *)
Definition Time_In (t : Time) (l : option Location) : Time :=
  mkTime (sec t) (nsec t) l.

(** The zero value [time.Time{}]. *)
Definition zeroTime : Time := mkTime 0 0 None.

(** ** Values held by an [interface{}] *)

(** Addresses give reference values their identity. *)
Definition addr : Type := Z.

(** Keys of the maps that are modelled: booleans, integers and strings. *)
Inductive mkey : Type :=
| MKBool (b : bool)
| MKInt (k : intKind) (n : Z)
| MKUint (k : uintKind) (n : Z)
| MKString (s : string).

Definition mkey_eqb (a b : mkey) : bool :=
  match a, b with
  | MKBool x, MKBool y => Bool.eqb x y
  | MKInt k x, MKInt l y => intKind_eqb k l && Z.eqb x y
  | MKUint k x, MKUint l y => uintKind_eqb k l && Z.eqb x y
  | MKString x, MKString y => String.eqb x y
  | _, _ => false
  end.

(** A Go value boxed in an [interface{}].  [VNil] is the nil interface.
    Reference values are [None] when nil and otherwise carry the address
    of what they refer to, next to its contents. *)
Inductive value : Type :=
| VNil
| VBool (b : bool)
| VInt (k : intKind) (n : Z)
| VUint (k : uintKind) (n : Z)
| VFloat (k : floatKind) (f : spec_float)
| VString (s : string)
| VTime (t : Time)
| VStruct (name : string) (ftypes : list gotype) (fields : list value)
| VArray (elem : gotype) (elems : list value)
| VSlice (elem : gotype) (data : option (addr * list value))
| VMap (key elem : gotype) (data : option (addr * list (mkey * value)))
| VPtr (elem : gotype) (target : option (addr * value))
| VChan (elem : gotype) (queue : option (addr * nat))
| VFunc (signature : string) (code : option addr).

(** [reflect.TypeOf(x)] for a non-nil [x]; [None] for the nil interface. *)
Definition TypeOf (x : value) : option gotype :=
  match x with
  | VNil => None
  | VBool _ => Some TBool
  | VInt k _ => Some (TInt k)
  | VUint k _ => Some (TUint k)
  | VFloat k _ => Some (TFloat k)
  | VString _ => Some TString
  | VTime _ => Some TTime
  | VStruct n ts _ => Some (TStruct n ts)
  | VArray t l => Some (TArray (List.length l) t)
  | VSlice t _ => Some (TSlice t)
  | VMap k t _ => Some (TMap k t)
  | VPtr t _ => Some (TPtr t)
  | VChan t _ => Some (TChan t)
  | VFunc s _ => Some (TFunc s)
  end.

Definition kind_of_int (k : intKind) : Kind :=
  match k with I0 => Int | I8 => Int8 | I16 => Int16 | I32 => Int32 | I64 => Int64 end.

Definition kind_of_uint (k : uintKind) : Kind :=
  match k with
  | U0 => Uint | U8 => Uint8 | U16 => Uint16 | U32 => Uint32 | U64 => Uint64
  | UPtr => Uintptr
  end.

Definition kind_of_float (k : floatKind) : Kind :=
  match k with F32 => Float32 | F64 => Float64 end.

(** [reflect.ValueOf(x).Kind()].  [ValueOf] unpacks the interface, so the
    kind is never [KInterface] here; the nil interface gives [Invalid]. *)
Definition kindOf (x : value) : Kind :=
  match x with
  | VNil => Invalid
  | VBool _ => KBool
  | VInt k _ => kind_of_int k
  | VUint k _ => kind_of_uint k
  | VFloat k _ => kind_of_float k
  | VString _ => KString
  | VTime _ => KStruct
  | VStruct _ _ _ => KStruct
  | VArray _ _ => KArray
  | VSlice _ _ => KSlice
  | VMap _ _ _ => KMap
  | VPtr _ _ => KPtr
  | VChan _ _ => KChan
  | VFunc _ _ => KFunc
  end.

(** [v.Len()] on an array, channel, map, slice or string; nil references
    have length 0.  ([reflect] panics on the other kinds; [isEmpty] asks
    only after switching on the kind.) *)
Definition Value_Len (x : value) : Z :=
  match x with
  | VString s => Z.of_nat (String.length s)
  | VArray _ l => Z.of_nat (List.length l)
  | VSlice _ (Some (_, l)) => Z.of_nat (List.length l)
  | VMap _ _ (Some (_, m)) => Z.of_nat (List.length m)
  | VChan _ (Some (_, n)) => Z.of_nat n
  | _ => 0
  end.

(** [v.Int()], [v.Uint()], [v.Float()], [v.String()]: the payload widened
    to 64 bits.  ([reflect] panics on the other kinds; every caller below
    switches on the kind first.)  The payload of a [VFloat] is kept as the
    float64 that [v.Float()] returns, also for a float32. *)
Definition Value_Int (x : value) : Z :=
  match x with VInt _ n => n | _ => 0 end.

Definition Value_Uint (x : value) : Z :=
  match x with VUint _ n => n | _ => 0 end.

Definition Value_Float (x : value) : spec_float :=
  match x with VFloat _ f => f | _ => S754_zero false end.

Definition Value_String (x : value) : string :=
  match x with VString s => s | _ => "" end.

(** [reflect.Zero(t).Interface()]. *)
Fixpoint Zero (t : gotype) : value :=
  match t with
  | TBool => VBool false
  | TInt k => VInt k 0
  | TUint k => VUint k 0
  | TFloat k => VFloat k (S754_zero false)
  | TString => VString ""
  | TInterface => VNil
  | TTime => VTime zeroTime
  | TStruct n fs => VStruct n fs (List.map Zero fs)
  | TArray n e => VArray e (List.repeat (Zero e) n)
  | TSlice e => VSlice e None
  | TMap k e => VMap k e None
  | TPtr e => VPtr e None
  | TChan e => VChan e None
  | TFunc s => VFunc s None
  end.

(** ** [reflect.DeepEqual] *)

Definition option_eqb {A : Type} (eqb : A -> A -> bool) (a b : option A) : bool :=
  match a, b with
  | None, None => true
  | Some x, Some y => eqb x y
  | _, _ => false
  end.

Fixpoint map_lookup (k : mkey) (m : list (mkey * value)) : option value :=
  match m with
  | [] => None
  | (k', v) :: m' => if mkey_eqb k k' then Some v else map_lookup k m'
  end.

(** [deepValueEqual]: an invalid or nil-interface operand is equal only to
    another one; values of distinct types are never equal; then by kind.
    Pointers, slices and maps that share their address are equal without
    looking inside; function values are equal only when both are nil. *)
Fixpoint deepValueEqual (v1 v2 : value) {struct v1} : bool :=
  match v1, v2 with
  | VNil, VNil => true
  | VNil, _ => false
  | _, VNil => false
  | _, _ =>
    option_eqb gotype_eqb (TypeOf v1) (TypeOf v2) &&
    match v1, v2 with
    | VBool a, VBool b => Bool.eqb a b
    | VInt _ a, VInt _ b => Z.eqb a b
    | VUint _ a, VUint _ b => Z.eqb a b
    | VFloat _ a, VFloat _ b => SFeqb a b
    | VString a, VString b => String.eqb a b
    | VTime t, VTime u =>
        Z.eqb (sec t) (sec u) && Z.eqb (nsec t) (nsec u) &&
        option_eqb Location_eqb (loc t) (loc u)
    | VStruct _ _ fs, VStruct _ _ gs =>
        forall2b deepValueEqual fs gs
    | VArray _ fs, VArray _ gs =>
        forall2b deepValueEqual fs gs
    | VSlice _ d1, VSlice _ d2 =>
        match d1, d2 with
        | None, None => true
        | Some (a1, fs), Some (a2, gs) =>
            Nat.eqb (List.length fs) (List.length gs) &&
            (Z.eqb a1 a2 || forall2b deepValueEqual fs gs)
        | _, _ => false
        end
    | VMap _ _ d1, VMap _ _ d2 =>
        match d1, d2 with
        | None, None => true
        | Some (a1, m1), Some (a2, m2) =>
            Nat.eqb (List.length m1) (List.length m2) &&
            (Z.eqb a1 a2 ||
             List.forallb
               (fun kv : mkey * value =>
                  let '(k, a) := kv in
                  match map_lookup k m2 with
                  | Some b => deepValueEqual a b
                  | None => false
                  end) m1)
        | _, _ => false
        end
    | VPtr _ p1, VPtr _ p2 =>
        match p1, p2 with
        | None, None => true
        | Some (a1, x), Some (a2, y) => Z.eqb a1 a2 || deepValueEqual x y
        | _, _ => false
        end
    | VChan _ c1, VChan _ c2 =>
        match c1, c2 with
        | None, None => true
        | Some (a1, _), Some (a2, _) => Z.eqb a1 a2
        | _, _ => false
        end
    | VFunc _ f1, VFunc _ f2 =>
        match f1, f2 with
        | None, None => true
        | _, _ => false
        end
    | _, _ => false
    end
  end.

(** [reflect.DeepEqual(x, y)]. *)
Definition DeepEqual (x y : value) : bool :=
  match x, y with
  | VNil, VNil => true
  | VNil, _ => false
  | _, VNil => false
  | _, _ => option_eqb gotype_eqb (TypeOf x) (TypeOf y) && deepValueEqual x y
  end.

(** ** Errors and outcomes *)

(** An operand of a [fmt.Errorf] call. *)
Inductive fmtArg : Type :=
| AStr (s : string)
| AOp (op : Z)
| AKind (k : Kind)
| AType (t : option gotype)
| AVal (v : value)
| AVals (l : list value).

(** A Go [error], kept as the call that built it. *)
Inductive error : Type :=
| errors_New (msg : string)
| fmt_Errorf (format : string) (args : list fmtArg).

(** A Go result pair [(A, error)]. *)
Inductive result (A : Type) : Type :=
| Ok (a : A)
| Err (e : error).
Arguments Ok {A} a.
Arguments Err {A} e.

(** What evaluating a call gives: a returned value or a run-time panic. *)
Inductive outcome (A : Type) : Type :=
| Ret (a : A)
| Panic (msg : string).
Arguments Ret {A} a.
Arguments Panic {A} msg.

(** ** The coercion layer and the emptiness primitive *)

(** [equal(x, y)]. *)
Definition equal (x y : value) : bool := DeepEqual x y.

(** Modelled from the spec: [equals], which [compareInterface] calls, is
    not defined in the package sources, which define [equal]; the
    specification describes [equals(a, b)] as deep structural equality,
    consistent with the language's canonical deep equality, which is what
    [equal] computes. *)
Definition equals (x y : value) : bool := equal x y.

(** The run-time panic of [reflect.Value.Interface] on the zero [Value]. *)
Definition panic_Interface : string :=
  "reflect: call of reflect.Value.Interface on zero Value".

(** [isEmpty(x)].  [v.Elem()] of a nil pointer is the zero [Value], on
    which [Interface()] panics.  Values are finite trees here: a pointer
    that reaches itself, on which the source recurses without end, is
    outside the model. *)
Fixpoint isEmpty (x : value) : outcome bool :=
  match x with
  | VNil => Ret true
  | VArray _ _ | VChan _ _ | VMap _ _ _ | VSlice _ _ | VString _ =>
      Ret (Value_Len x =? 0)
  | VPtr _ target =>
      match target with
      | None => Panic panic_Interface
      | Some (_, y) => isEmpty y
      end
  | _ =>
      Ret (DeepEqual x match TypeOf x with Some t => Zero t | None => VNil end)
  end.

(** [toInt64(x)]. *)
Definition toInt64 (x : value) : result Z :=
  match x with
  | VNil => Err (errors_New "cannot convert nil to type int64")
  | _ =>
    let kind := kindOf x in
    match kind with
    | Int | Int8 | Int16 | Int32 | Int64 => Ok (Value_Int x)
    | _ => Err (fmt_Errorf "cannot convert `%v` to type int64" [AKind kind])
    end
  end.

(** [toUint64(x)]. *)
Definition toUint64 (x : value) : result Z :=
  match x with
  | VNil => Err (errors_New "cannot convert nil to type uint64")
  | _ =>
    let kind := kindOf x in
    match kind with
    | Uint | Uint8 | Uint16 | Uint32 | Uint64 => Ok (Value_Uint x)
    | _ => Err (fmt_Errorf "cannot convert `%v` to type uint64" [AKind kind])
    end
  end.

(** [toFloat64(x)]. *)
Definition toFloat64 (x : value) : result spec_float :=
  match x with
  | VNil => Err (errors_New "cannot convert nil to type float64")
  | _ =>
    let kind := kindOf x in
    match kind with
    | Float32 | Float64 => Ok (Value_Float x)
    | _ => Err (fmt_Errorf "cannot convert `%v` to type float64" [AKind kind])
    end
  end.

(** [toString(x)]. *)
Definition toString (x : value) : result string :=
  match x with
  | VNil => Err (errors_New "cannot convert nil to type string")
  | _ =>
    let kind := kindOf x in
    match kind with
    | KString => Ok (Value_String x)
    | _ => Err (fmt_Errorf "cannot convert `%v` to type string" [AKind kind])
    end
  end.

(** [toTime(x)]: the type assertion [x.(time.Time)]. *)
Definition toTime (x : value) : result Time :=
  match x with
  | VNil => Err (errors_New "cannot convert nil to type time.Time")
  | VTime v => Ok v
  | _ => Err (fmt_Errorf "cannot convert `%v` to time.Time" [AType (TypeOf x)])
  end.

(** ** The comparison engine *)

(** [type cmpOp int] and its constants, [iota + 1]. *)
Definition cmpOp : Type := Z.
Definition eq : cmpOp := 1.
Definition ne : cmpOp := 2.
Definition lt : cmpOp := 3.
Definition lte : cmpOp := 4.
Definition gt : cmpOp := 5.
Definition gte : cmpOp := 6.

(** The map [cmpOps]; a missing key reads as the empty string. *)
Definition cmpOps (op : cmpOp) : string :=
  if op =? eq then "eq"
  else if op =? ne then "ne"
  else if op =? lt then "lt"
  else if op =? lte then "lte"
  else if op =? gt then "gt"
  else if op =? gte then "gte"
  else "".

(** The map [cmpErrs]. *)
Definition cmpErrs (op : cmpOp) : string :=
  if op =? eq then "`%s` comparison failed: `%v` is not equal to `%v`"
  else if op =? ne then "`%s` comparison failed: `%v` is equal to `%v`"
  else if op =? lt then "`%s` comparison failed: `%v` is not less than `%v`"
  else if op =? lte then
    "`%s` comparison failed: `%v` is not less than or equal to `%v`"
  else if op =? gt then "`%s` comparison failed: `%v` is not greater than `%v`"
  else if op =? gte then
    "`%s` comparison failed: `%v` is not greater than or equal to `%v`"
  else "".

Record cmpField : Type := mkCmpField { op : cmpOp; term : value }.

(** [newCmpField(op, term)]. *)
Definition newCmpField (o : cmpOp) (t : value) : result cmpField :=
  if (o <? eq) || (o >? gte) then
    Err (fmt_Errorf "invalid comparison operator `%d`" [AOp o])
  else Ok (mkCmpField o t).

(** The [switch op] shared by the typed comparisons: [ok] stays false when
    no case applies. *)
Definition switch_op (o : cmpOp) (c_eq c_ne c_lt c_lte c_gt c_gte : bool) : bool :=
  if o =? eq then c_eq
  else if o =? ne then c_ne
  else if o =? lt then c_lt
  else if o =? lte then c_lte
  else if o =? gt then c_gt
  else if o =? gte then c_gte
  else false.

(** The common tail [if !ok { return fmt.Errorf(cmpErrs[op], ...) }]. *)
Definition cmpResult (ok : bool) (o : cmpOp) (x t : value) : option error :=
  if negb ok then Some (fmt_Errorf (cmpErrs o) [AStr (cmpOps o); AVal x; AVal t])
  else None.

(** [compareInt64(x, cmp)]. *)
Definition compareInt64 (x : Z) (cmp : cmpField) : option error :=
  match toInt64 (term cmp) with
  | Err err => Some err
  | Ok t =>
    let o := op cmp in
    let ok := switch_op o (x =? t) (negb (x =? t)) (x <? t) (x <=? t)
                          (x >? t) (x >=? t) in
    cmpResult ok o (VInt I64 x) (VInt I64 t)
  end.

(** [compareUint64(x, cmp)]. *)
Definition compareUint64 (x : Z) (cmp : cmpField) : option error :=
  match toUint64 (term cmp) with
  | Err err => Some err
  | Ok t =>
    let o := op cmp in
    let ok := switch_op o (x =? t) (negb (x =? t)) (x <? t) (x <=? t)
                          (x >? t) (x >=? t) in
    cmpResult ok o (VUint U64 x) (VUint U64 t)
  end.

(** [compareFloat64(x, cmp)], with the IEEE-754 comparisons of Go. *)
Definition compareFloat64 (x : spec_float) (cmp : cmpField) : option error :=
  match toFloat64 (term cmp) with
  | Err err => Some err
  | Ok t =>
    let o := op cmp in
    let ok := switch_op o (SFeqb x t) (negb (SFeqb x t)) (SFltb x t) (SFleb x t)
                          (SFltb t x) (SFleb t x) in
    cmpResult ok o (VFloat F64 x) (VFloat F64 t)
  end.

(** [compareString(x, cmp)], with the bytewise ordering of Go strings. *)
Definition compareString (x : string) (cmp : cmpField) : option error :=
  match toString (term cmp) with
  | Err err => Some err
  | Ok t =>
    let o := op cmp in
    let ok := switch_op o (String.eqb x t) (negb (String.eqb x t))
                          (String.ltb x t) (String.leb x t)
                          (String.ltb t x) (String.leb t x) in
    cmpResult ok o (VString x) (VString t)
  end.

(** [compareTime(x, cmp)]. *)
Definition compareTime (x : Time) (cmp : cmpField) : option error :=
  match toTime (term cmp) with
  | Err err => Some err
  | Ok t =>
    let o := op cmp in
    let ok := switch_op o (Time_Equal x t) (negb (Time_Equal x t))
                          (Time_Before x t) (Time_Before x t || Time_Equal x t)
                          (Time_After x t) (Time_After x t || Time_Equal x t) in
    cmpResult ok o (VTime x) (VTime t)
  end.

(** [compareInterface(x, cmp)]. *)
Definition compareInterface (x : value) (cmp : cmpField) : option error :=
  let o := op cmp in
  let t := term cmp in
  if o =? eq then cmpResult (equals x t) o x t
  else if o =? ne then cmpResult (negb (equals x t)) o x t
  else Some (fmt_Errorf "invalid operation `%s` for values `%v` and `%v`"
               [AStr (cmpOps o); AVal x; AVal t]).

(** [compare(x, cmp)]; [cmp] is a pointer, [None] when nil. *)
Definition compare (x : value) (cmp : option cmpField) : option error :=
  match cmp with
  | None => Some (errors_New "comparison field cannot be nil")
  | Some c =>
    let o := op c in
    if (o <? eq) || (o >? gte) then
      Some (fmt_Errorf "invalid comparison operator `%d`" [AOp o])
    else
      match kindOf x with
      | Int | Int8 | Int16 | Int32 | Int64 => compareInt64 (Value_Int x) c
      | Uint | Uint8 | Uint16 | Uint32 | Uint64 => compareUint64 (Value_Uint x) c
      | Float32 | Float64 => compareFloat64 (Value_Float x) c
      | KString => compareString (Value_String x) c
      | KStruct =>
          match toTime x with
          | Ok t => compareTime t c
          | Err _ => compareInterface x c
          end
      | _ => compareInterface x c
      end
  end.

(** ** Strings as UTF-8: what [unicode/utf8], [unicode] and [strings] do

    A Go string is a sequence of bytes ([string] here, one [ascii] per
    byte); [range], [strings.TrimSpace] and [strings.Map] read it as
    UTF-8, an invalid byte being the rune [RuneError] of width 1. *)

Definition RuneError : Z := 0xFFFD.
Definition RuneSelf : Z := 0x80.
Definition UTFMax : Z := 4.

Definition byte_of (c : ascii) : Z := Z.of_N (N_of_ascii c).
Definition ascii_of (b : Z) : ascii := ascii_of_N (Z.to_N b).

Definition bytes_of_string (s : string) : list Z :=
  List.map byte_of (list_ascii_of_string s).
Definition string_of_bytes (l : list Z) : string :=
  string_of_list_ascii (List.map ascii_of l).

(** The continuation-byte test of the decoder, for a second byte that must
    lie in [lo, hi]. *)
Definition cont (lo hi b : Z) : bool := (lo <=? b) && (b <=? hi).

(** [utf8.DecodeRuneInString]: the first rune and its width in bytes. *)
Definition DecodeRune (s : list Z) : Z * nat :=
  match s with
  | [] => (RuneError, 0%nat)
  | s0 :: r0 =>
    if s0 <? RuneSelf then (s0, 1%nat)
    else if (s0 <? 0xC2) || (0xF4 <? s0) then (RuneError, 1%nat)
    else
      let lo := if s0 =? 0xE0 then 0xA0 else if s0 =? 0xF0 then 0x90 else 0x80 in
      let hi := if s0 =? 0xED then 0x9F else if s0 =? 0xF4 then 0x8F else 0xBF in
      if s0 <? 0xE0 then
        match r0 with
        | s1 :: _ =>
          if cont lo hi s1 then
            (Z.lor (Z.shiftl (Z.land s0 0x1F) 6) (Z.land s1 0x3F), 2%nat)
          else (RuneError, 1%nat)
        | _ => (RuneError, 1%nat)
        end
      else if s0 <? 0xF0 then
        match r0 with
        | s1 :: s2 :: _ =>
          if cont lo hi s1 && cont 0x80 0xBF s2 then
            (Z.lor (Z.lor (Z.shiftl (Z.land s0 0x0F) 12)
                          (Z.shiftl (Z.land s1 0x3F) 6))
                   (Z.land s2 0x3F), 3%nat)
          else (RuneError, 1%nat)
        | _ => (RuneError, 1%nat)
        end
      else
        match r0 with
        | s1 :: s2 :: s3 :: _ =>
          if cont lo hi s1 && cont 0x80 0xBF s2 && cont 0x80 0xBF s3 then
            (Z.lor (Z.lor (Z.lor (Z.shiftl (Z.land s0 0x07) 18)
                                 (Z.shiftl (Z.land s1 0x3F) 12))
                          (Z.shiftl (Z.land s2 0x3F) 6))
                   (Z.land s3 0x3F), 4%nat)
          else (RuneError, 1%nat)
        | _ => (RuneError, 1%nat)
        end
  end.

(** [utf8.RuneStart]. *)
Definition RuneStart (b : Z) : bool := negb (Z.land b 0xC0 =? 0x80).

(** The backward scan of [DecodeLastRuneInString] for the start of the
    last rune, at most [UTFMax] bytes from the end. *)
Fixpoint scanStart (fuel : nat) (s : list Z) (lim start : Z) : Z :=
  match fuel with
  | O => start
  | S fuel' =>
    if start <? lim then start
    else if RuneStart (List.nth (Z.to_nat start) s 0) then start
    else scanStart fuel' s lim (start - 1)
  end.

(** [utf8.DecodeLastRuneInString]: the last rune and its width. *)
Definition DecodeLastRune (s : list Z) : Z * nat :=
  let end_ := Z.of_nat (List.length s) in
  if end_ =? 0 then (RuneError, 0%nat)
  else
    let r := List.nth (Z.to_nat (end_ - 1)) s 0 in
    if r <? RuneSelf then (r, 1%nat)
    else
      let lim := Z.max 0 (end_ - UTFMax) in
      let start := Z.max 0 (scanStart 4 s lim (end_ - 2)) in
      let '(r', size) := DecodeRune (List.skipn (Z.to_nat start) s) in
      if start + Z.of_nat size =? end_ then (r', size)
      else (RuneError, 1%nat).

(** [utf8.EncodeRune] (through [WriteRune]). *)
Definition EncodeRune (r : Z) : list Z :=
  if (0 <=? r) && (r <=? 0x7F) then [r]
  else if (0 <=? r) && (r <=? 0x7FF) then
    [Z.lor 0xC0 (Z.shiftr r 6); Z.lor 0x80 (Z.land r 0x3F)]
  else
    let r := if (r <? 0) || (0x10FFFF <? r) || ((0xD800 <=? r) && (r <=? 0xDFFF))
             then RuneError else r in
    if r <=? 0xFFFF then
      [Z.lor 0xE0 (Z.shiftr r 12); Z.lor 0x80 (Z.land (Z.shiftr r 6) 0x3F);
       Z.lor 0x80 (Z.land r 0x3F)]
    else
      [Z.lor 0xF0 (Z.shiftr r 18); Z.lor 0x80 (Z.land (Z.shiftr r 12) 0x3F);
       Z.lor 0x80 (Z.land (Z.shiftr r 6) 0x3F); Z.lor 0x80 (Z.land r 0x3F)].

(** [unicode.IsSpace]: the Latin-1 spaces, then the [White_Space] table. *)
Definition IsSpace (r : Z) : bool :=
  if (0 <=? r) && (r <=? 0xFF) then
    (r =? 0x09) || (r =? 0x0A) || (r =? 0x0B) || (r =? 0x0C) || (r =? 0x0D) ||
    (r =? 0x20) || (r =? 0x85) || (r =? 0xA0)
  else
    (r =? 0x1680) || ((0x2000 <=? r) && (r <=? 0x200A)) ||
    ((0x2028 <=? r) && (r <=? 0x2029)) || (r =? 0x202F) || (r =? 0x205F) ||
    (r =? 0x3000).

(** [for _, r := range s]: the runes of [s] in order.  Every step consumes
    at least one byte, so the length of [s] is fuel enough. *)
Fixpoint runes_fuel (fuel : nat) (s : list Z) : list Z :=
  match fuel, s with
  | S fuel', _ :: _ =>
    let '(r, w) := DecodeRune s in r :: runes_fuel fuel' (List.skipn w s)
  | _, _ => []
  end.

Definition runes (s : string) : list Z :=
  let b := bytes_of_string s in runes_fuel (List.length b) b.

(** [indexFunc(s, f, truth)] from byte offset [i]: the offset of the first
    rune on which [f] gives [truth], or -1. *)
Fixpoint indexFunc_fuel (fuel : nat) (f : Z -> bool) (truth : bool)
    (s : list Z) (i : Z) : Z :=
  match fuel, s with
  | S fuel', _ :: _ =>
    let '(r, w) := DecodeRune s in
    if Bool.eqb (f r) truth then i
    else indexFunc_fuel fuel' f truth (List.skipn w s) (i + Z.of_nat w)
  | _, _ => -1
  end.

Definition indexFunc (s : list Z) (f : Z -> bool) (truth : bool) : Z :=
  indexFunc_fuel (List.length s) f truth s 0.

(** [lastIndexFunc(s, f, truth)], scanning [s[0:i]] backwards. *)
Fixpoint lastIndexFunc_fuel (fuel : nat) (f : Z -> bool) (truth : bool)
    (s : list Z) (i : Z) : Z :=
  match fuel with
  | O => -1
  | S fuel' =>
    if i >? 0 then
      let '(r, size) := DecodeLastRune (List.firstn (Z.to_nat i) s) in
      let i' := i - Z.of_nat size in
      if Bool.eqb (f r) truth then i'
      else lastIndexFunc_fuel fuel' f truth s i'
    else -1
  end.

Definition lastIndexFunc (s : list Z) (f : Z -> bool) (truth : bool) : Z :=
  lastIndexFunc_fuel (S (List.length s)) f truth s (Z.of_nat (List.length s)).

(** [strings.TrimLeftFunc]. *)
Definition TrimLeftFunc (s : list Z) (f : Z -> bool) : list Z :=
  let i := indexFunc s f false in
  if i =? -1 then [] else List.skipn (Z.to_nat i) s.

(** [strings.TrimRightFunc]. *)
Definition TrimRightFunc (s : list Z) (f : Z -> bool) : list Z :=
  let i := lastIndexFunc s f false in
  let i :=
    if (i >=? 0) && (List.nth (Z.to_nat i) s 0 >=? RuneSelf) then
      i + Z.of_nat (snd (DecodeRune (List.skipn (Z.to_nat i) s)))
    else i + 1 in
  List.firstn (Z.to_nat i) s.

(** [strings.TrimSpace]: leading and trailing white space removed. *)
Definition TrimSpace (s : string) : string :=
  string_of_bytes
    (TrimRightFunc (TrimLeftFunc (bytes_of_string s) IsSpace) IsSpace).

(** [strings.Map(mapping, s)]: a negative result drops the rune. *)
Definition strings_Map (mapping : Z -> Z) (s : string) : string :=
  string_of_bytes
    (List.concat
       (List.map (fun c => let r := mapping c in
                           if r >=? 0 then EncodeRune r else [])
                 (runes s))).

(** ** The string helpers of the package *)

(** [errEmpty]. *)
Definition errEmpty : error := errors_New "empty argument".

(** [requiredErr(required, message)]. *)
Definition requiredErr (required : bool) (message : string) : option error :=
  if negb required then None
  else
    let message := TrimSpace message in
    if negb (String.eqb message "") then Some (errors_New message)
    else Some errEmpty.

(** [stripSpaces(s)]. *)
Definition stripSpaces (s : string) : string :=
  strings_Map (fun r => if IsSpace r then -1 else r) s.

(** [isEmptyStr(field)]. *)
Definition isEmptyStr (field : string) : bool :=
  String.eqb (TrimSpace field) "".

(** ** The runner *)

(** [type ValidateFunc func() error]: a deferred check.  Evaluating it
    returns an error, returns nil, or panics. *)
Definition ValidateFunc : Type := unit -> outcome (option error).

(** [Run(vfs...)]. *)
Fixpoint Run (vfs : list ValidateFunc) : outcome (option error) :=
  match vfs with
  | [] => Ret None
  | vf :: rest =>
    match vf tt with
    | Panic m => Panic m
    | Ret (Some err) => Ret (Some err)
    | Ret None => Run rest
    end
  end.

(** ** The validation functions *)

(** The loop of [Required] over its arguments. *)
Fixpoint Required_loop (args : list value) : outcome (option error) :=
  match args with
  | [] => Ret None
  | arg :: rest =>
    match isEmpty arg with
    | Panic m => Panic m
    | Ret true => Ret (Some errEmpty)
    | Ret false => Required_loop rest
    end
  end.

(** [Required(args...)]. *)
Definition Required (args : list value) : ValidateFunc :=
  fun _ => Required_loop args.

(** The body shared by [Eq], [Ne], [Lt], [Lte], [Gt] and [Gte]. *)
Definition compareWith (o : cmpOp) (x t : value) : option error :=
  match newCmpField o t with
  | Err err => Some err
  | Ok cmpField => compare x (Some cmpField)
  end.

(** [Eq(x, term)]. *)
Definition Eq (x t : value) : ValidateFunc := fun _ => Ret (compareWith eq x t).
(** [Ne(x, term)]. *)
Definition Ne (x t : value) : ValidateFunc := fun _ => Ret (compareWith ne x t).
(** [Lt(x, term)]. *)
Definition Lt (x t : value) : ValidateFunc := fun _ => Ret (compareWith lt x t).
(** [Lte(x, term)]. *)
Definition Lte (x t : value) : ValidateFunc := fun _ => Ret (compareWith lte x t).
(** [Gt(x, term)]. *)
Definition Gt (x t : value) : ValidateFunc := fun _ => Ret (compareWith gt x t).
(** [Gte(x, term)]. *)
Definition Gte (x t : value) : ValidateFunc := fun _ => Ret (compareWith gte x t).

(** [Between(x, lower, upper)]. *)
Definition Between (x lower upper : value) : ValidateFunc :=
  fun _ =>
    match newCmpField gte lower with
    | Err err => Ret (Some err)
    | Ok cmpField =>
      match compare x (Some cmpField) with
      | Some err => Ret (Some err)
      | None =>
        match newCmpField lte upper with
        | Err err => Ret (Some err)
        | Ok cmpField => Ret (compare x (Some cmpField))
        end
      end
    end.

(** The loop of [In] over the candidates; [elems] is the whole list, for
    the message. *)
Fixpoint In_loop (x : value) (elems rest : list value) : option error :=
  match rest with
  | [] =>
    Some (fmt_Errorf "`in` comparison failed: `%v` not in `%v`"
            [AVal x; AVals elems])
  | elem :: rest' =>
    match newCmpField eq elem with
    | Err err => Some err
    | Ok cmpField =>
      match compare x (Some cmpField) with
      | None => None
      | Some _ => In_loop x elems rest'
      end
    end
  end.

(** [In(x, elems...)]. *)
Definition In (x : value) (elems : list value) : ValidateFunc :=
  fun _ => Ret (In_loop x elems elems).

(** The loop of [NotIn]. *)
Fixpoint NotIn_loop (x : value) (elems rest : list value) : option error :=
  match rest with
  | [] => None
  | elem :: rest' =>
    match newCmpField eq elem with
    | Err err => Some err
    | Ok cmpField =>
      match compare x (Some cmpField) with
      | None =>
        Some (fmt_Errorf "`not in` comparison failed: `%v` in `%v`"
                [AVal x; AVals elems])
      | Some _ => NotIn_loop x elems rest'
      end
    end
  end.

(** [NotIn(x, elems...)]. *)
Definition NotIn (x : value) (elems : list value) : ValidateFunc :=
  fun _ => Ret (NotIn_loop x elems elems).

(** [strings.Split(s, ",")] on the bytes of [s]. *)
Fixpoint split_comma (cur : string) (s : string) : list string :=
  match s with
  | EmptyString => [cur]
  | String c s' =>
    if Ascii.eqb c ","%char then cur :: split_comma "" s'
    else split_comma (cur ++ String c "") s'
  end.

Section Formats.

(** The parsers and patterns the format checks rely on, from the
    standard library ([regexp], [net/mail], [net]) and from the
    package's pattern table: each tells whether its input is accepted. *)
Variable regexp_MatchString : string -> string -> result bool.
Variable mail_ParseAddress : string -> bool.
Variable regURL_MatchString : string -> bool.
Variable regIBAN_MatchString : string -> bool.
Variable regVAT_MatchString : string -> bool.
Variable net_ParseIP : string -> bool.
Variable net_ParseMAC : string -> bool.

(** [Matches(val, pattern, required)]. *)
Definition Matches (val pattern : string) (required : bool) : ValidateFunc :=
  fun _ =>
    if isEmptyStr val then Ret (requiredErr required "match term cannot be empty")
    else
      match regexp_MatchString pattern val with
      | Err _ => Ret (Some (fmt_Errorf "invalid pattern `%s`" [AStr pattern]))
      | Ok ok =>
        if negb ok then
          Ret (Some (fmt_Errorf "`%s` does not match pattern `%s`"
                       [AStr val; AStr pattern]))
        else Ret None
      end.

(** [Email(email, required)]. *)
Definition Email (email : string) (required : bool) : ValidateFunc :=
  fun _ =>
    if isEmptyStr email then
      Ret (requiredErr required "email address cannot be empty")
    else if negb (mail_ParseAddress email) then
      Ret (Some (fmt_Errorf "invalid email address `%s`" [AStr email]))
    else Ret None.

(** The loop of [EmailList] over the comma-separated addresses. *)
Fixpoint EmailList_loop (emails : list string) : option error :=
  match emails with
  | [] => None
  | email :: rest =>
    if negb (mail_ParseAddress email) then
      Some (fmt_Errorf "invalid email address `%s`" [AStr email])
    else EmailList_loop rest
  end.

(** [EmailList(list, required)]. *)
Definition EmailList (list : string) (required : bool) : ValidateFunc :=
  fun _ =>
    let list := stripSpaces list in
    if isEmptyStr list then
      Ret (requiredErr required "email address list cannot be empty")
    else Ret (EmailList_loop (split_comma "" list)).

(** [URL(url, required)]. *)
Definition URL (url : string) (required : bool) : ValidateFunc :=
  fun _ =>
    if isEmptyStr url then Ret (requiredErr required "URL cannot be empty")
    else if negb (regURL_MatchString url) then
      Ret (Some (fmt_Errorf "invalid URL `%s`" [AStr url]))
    else Ret None.

(** [IBAN(iban, required)]. *)
Definition IBAN (iban : string) (required : bool) : ValidateFunc :=
  fun _ =>
    if isEmptyStr iban then Ret (requiredErr required "IBAN cannot be empty")
    else if negb (regIBAN_MatchString iban) then
      Ret (Some (fmt_Errorf "invalid IBAN `%s`" [AStr iban]))
    else Ret None.

(** [VAT(vat, required)]. *)
Definition VAT (vat : string) (required : bool) : ValidateFunc :=
  fun _ =>
    if isEmptyStr vat then
      Ret (requiredErr required "VAT number cannot be empty")
    else if negb (regVAT_MatchString vat) then
      Ret (Some (fmt_Errorf "invalid VAT number `%s`" [AStr vat]))
    else Ret None.

(** [IP(ip, required)]. *)
Definition IP (ip : string) (required : bool) : ValidateFunc :=
  fun _ =>
    if isEmptyStr ip then
      Ret (requiredErr required "IP address cannot be empty")
    else if negb (net_ParseIP ip) then
      Ret (Some (fmt_Errorf "invalid IP address `%s`" [AStr ip]))
    else Ret None.

(** [MAC(mac, required)]. *)
Definition MAC (mac : string) (required : bool) : ValidateFunc :=
  fun _ =>
    if isEmptyStr mac then
      Ret (requiredErr required "MAC address cannot be empty")
    else if negb (net_ParseMAC mac) then
      Ret (Some (fmt_Errorf "invalid mac address `%s`" [AStr mac]))
    else Ret None.

End Formats.

(** ** The vocabulary of the specification *)

(** The comparison categories.  The category of a value is the branch
    that [compare] takes on it as left operand. *)
Inductive Category : Type :=
| SignedInteger | UnsignedInteger | FloatingPoint | StringCat | Timestamp
| Opaque.

Definition category (x : value) : Category :=
  match x with
  | VInt _ _ => SignedInteger
  | VUint UPtr _ => Opaque
  | VUint _ _ => UnsignedInteger
  | VFloat _ _ => FloatingPoint
  | VString _ => StringCat
  | VTime _ => Timestamp
  | _ => Opaque
  end.

(** An operator of the closed enumeration. *)
Definition valid_op (o : cmpOp) : Prop := eq <= o <= gte.

(** An ordering operator: one of lt, lte, gt, gte. *)
Definition ordering_op (o : cmpOp) : Prop := lt <= o <= gte.

Definition is_nan (f : spec_float) : bool :=
  match f with S754_nan => true | _ => false end.

(** A value that holds no NaN and no non-nil function where deep equality
    looks when a value is compared with itself: in the value, in the
    fields of a struct, in the elements of an array.  Pointers, slices
    and maps are not looked through: they are equal to themselves by
    identity. *)
Fixpoint self_equal (x : value) : bool :=
  match x with
  | VFloat _ f => negb (is_nan f)
  | VFunc _ (Some _) => false
  | VStruct _ _ fs => List.forallb self_equal fs
  | VArray _ es => List.forallb self_equal es
  | _ => true
  end.

(** An operand as a failed comparison reports it: the typed comparisons
    pass the operand widened to 64 bits to [fmt.Errorf], the structural
    one passes it as it is. *)
Definition as_compared (x : value) : value :=
  match x with
  | VInt _ n => VInt I64 n
  | VUint UPtr _ => x
  | VUint _ n => VUint U64 n
  | VFloat _ f => VFloat F64 f
  | _ => x
  end.

(** The instant of a timestamp, in nanoseconds since the zero time. *)
Definition instant (t : Time) : Z := sec t * 1000000000 + nsec t.

(** The nanosecond field of a [time.Time] lies within one second. *)
Definition valid_time (t : Time) : Prop := 0 <= nsec t < 1000000000.

Definition valid_value (x : value) : Prop :=
  match x with
  | VTime t => valid_time t
  | _ => True
  end.

(** The native order of each orderable category, [a <= b]: integers by
    value, floats by IEEE-754, strings bytewise, timestamps by instant.
    Values of different categories are not ordered. *)
Definition native_le (a b : value) : bool :=
  match category a, category b with
  | SignedInteger, SignedInteger => Value_Int a <=? Value_Int b
  | UnsignedInteger, UnsignedInteger => Value_Uint a <=? Value_Uint b
  | FloatingPoint, FloatingPoint => SFleb (Value_Float a) (Value_Float b)
  | StringCat, StringCat => String.leb (Value_String a) (Value_String b)
  | Timestamp, Timestamp =>
      match a, b with
      | VTime t, VTime u => instant t <=? instant u
      | _, _ => false
      end
  | _, _ => false
  end.

(** The right operand converts to the category of the left one. *)
Definition term_converts (x t : value) : bool :=
  match category x with
  | SignedInteger => match toInt64 t with Ok _ => true | Err _ => false end
  | UnsignedInteger => match toUint64 t with Ok _ => true | Err _ => false end
  | FloatingPoint => match toFloat64 t with Ok _ => true | Err _ => false end
  | StringCat => match toString t with Ok _ => true | Err _ => false end
  | Timestamp => match toTime t with Ok _ => true | Err _ => false end
  | Opaque => true
  end.

(** A string made of white space only, rune by rune. *)
Definition all_space (s : string) : Prop :=
  List.forallb IsSpace (runes s) = true.

(** The conversion that [compare] applies to the right operand for a left
    operand of category [c]; an opaque left operand converts nothing. *)
Definition convert_term (c : Category) (t : value) : option error :=
  match c with
  | SignedInteger => match toInt64 t with Ok _ => None | Err e => Some e end
  | UnsignedInteger => match toUint64 t with Ok _ => None | Err e => Some e end
  | FloatingPoint => match toFloat64 t with Ok _ => None | Err e => Some e end
  | StringCat => match toString t with Ok _ => None | Err e => Some e end
  | Timestamp => match toTime t with Ok _ => None | Err e => Some e end
  | Opaque => None
  end.

(** A Unicode code point that UTF-8 encodes: at most U+10FFFF and no
    surrogate half. *)
Definition valid_rune (r : Z) : Prop :=
  0 <= r <= 0x10FFFF /\ ~ (0xD800 <= r <= 0xDFFF).

(** The value of a byte. *)
Definition is_byte (z : Z) : Prop := 0 <= z < 256.

(** The slices [[]string{"a", "b", "c"}] and [[]string{"a", "b", "d"}] of
    the documented examples, allocated at [a]. *)
Definition strings_abc (a : addr) : value :=
  VSlice TString (Some (a, [VString "a"; VString "b"; VString "c"])).

Definition strings_abd (a : addr) : value :=
  VSlice TString (Some (a, [VString "a"; VString "b"; VString "d"])).

(** ** Induction on values, with the nested fields and elements *)

Section value_nested_ind.

Variable P : value -> Prop.

Hypothesis P_struct : forall n ts fs, Forall P fs -> P (VStruct n ts fs).
Hypothesis P_array : forall t es, Forall P es -> P (VArray t es).
Hypothesis P_ptr : forall t a y, P y -> P (VPtr t (Some (a, y))).
Hypothesis P_flat :
  forall x,
    match x with
    | VStruct _ _ _ | VArray _ _ | VPtr _ (Some _) => False
    | _ => True
    end -> P x.

Fixpoint value_nested_ind (x : value) : P x :=
  let all :=
    fix all (l : list value) : Forall P l :=
      match l with
      | [] => Forall_nil P
      | y :: l' => Forall_cons y (value_nested_ind y) (all l')
      end in
  match x with
  | VStruct n ts fs => P_struct n ts fs (all fs)
  | VArray t es => P_array t es (all es)
  | VPtr t (Some (a, y)) => P_ptr t a y (value_nested_ind y)
  | y => P_flat y I
  end.

End value_nested_ind.

Section gotype_nested_ind.

Variable P : gotype -> Prop.

Hypothesis P_tstruct : forall n fs, Forall P fs -> P (TStruct n fs).
Hypothesis P_tarray : forall n e, P e -> P (TArray n e).
Hypothesis P_tslice : forall e, P e -> P (TSlice e).
Hypothesis P_tmap : forall k e, P k -> P e -> P (TMap k e).
Hypothesis P_tptr : forall e, P e -> P (TPtr e).
Hypothesis P_tchan : forall e, P e -> P (TChan e).
Hypothesis P_tbase :
  forall t,
    match t with
    | TBool | TInt _ | TUint _ | TFloat _ | TString | TInterface | TTime
    | TFunc _ => True
    | _ => False
    end -> P t.

Fixpoint gotype_nested_ind (t : gotype) : P t :=
  match t with
  | TStruct n fs =>
      P_tstruct n fs
        ((fix all (l : list gotype) : Forall P l :=
            match l with
            | [] => Forall_nil P
            | y :: l' => Forall_cons y (gotype_nested_ind y) (all l')
            end) fs)
  | TArray n e => P_tarray n e (gotype_nested_ind e)
  | TSlice e => P_tslice e (gotype_nested_ind e)
  | TMap k e => P_tmap k e (gotype_nested_ind k) (gotype_nested_ind e)
  | TPtr e => P_tptr e (gotype_nested_ind e)
  | TChan e => P_tchan e (gotype_nested_ind e)
  | y => P_tbase y I
  end.

End gotype_nested_ind.

(** ** Basic facts *)

Lemma intKind_eqb_refl (k : intKind) : intKind_eqb k k = true.
Proof. destruct k; reflexivity. Qed.

Lemma uintKind_eqb_refl (k : uintKind) : uintKind_eqb k k = true.
Proof. destruct k; reflexivity. Qed.

Lemma floatKind_eqb_refl (k : floatKind) : floatKind_eqb k k = true.
Proof. destruct k; reflexivity. Qed.

Lemma forall2b_diag {A : Type} (f : A -> A -> bool) (l : list A) :
  forall2b f l l = List.forallb (fun a => f a a) l.
Proof.
  induction l as [|a l IH]; simpl; [reflexivity|].
  now rewrite IH.
Qed.

Lemma forallb_ext_Forall {A : Type} (f g : A -> bool) (l : list A) :
  Forall (fun a => f a = g a) l -> List.forallb f l = List.forallb g l.
Proof.
  induction 1 as [|a l Ha _ IH]; simpl; [reflexivity|].
  now rewrite Ha, IH.
Qed.

Lemma gotype_eqb_refl (t : gotype) : gotype_eqb t t = true.
Proof.
  induction t using gotype_nested_ind; simpl;
    rewrite ?Nat.eqb_refl, ?IHt, ?IHt1, ?IHt2; try reflexivity.
  - rewrite String.eqb_refl, forall2b_diag. simpl.
    apply forallb_forall. now apply Forall_forall.
  - destruct t; simpl; try contradiction; try reflexivity;
      auto using intKind_eqb_refl, uintKind_eqb_refl, floatKind_eqb_refl,
        String.eqb_refl.
Qed.

Lemma TypeOf_eqb_refl (x : value) :
  option_eqb gotype_eqb (TypeOf x) (TypeOf x) = true.
Proof.
  destruct (TypeOf x) as [t|]; simpl; [apply gotype_eqb_refl | reflexivity].
Qed.

(** IEEE-754 equality is reflexive except on NaN. *)
Lemma SFeqb_diag (f : spec_float) : SFeqb f f = negb (is_nan f).
Proof.
  destruct f as [s|s| |s m e]; simpl; try reflexivity.
  - unfold SFeqb; simpl. now destruct s.
  - unfold SFeqb; simpl.
    rewrite Z.compare_refl, Pos.compare_cont_refl. now destruct s.
Qed.

Lemma Location_eqb_refl (l : Location) : Location_eqb l l = true.
Proof.
  unfold Location_eqb. now rewrite String.eqb_refl, Z.eqb_refl.
Qed.

(** Deep equality of a value with itself. *)
Lemma deepValueEqual_diag (x : value) : deepValueEqual x x = self_equal x.
Proof.
  induction x as [n ts fs IH | t es IH | t a y IH | x Hx]
    using value_nested_ind.
  - cbn [deepValueEqual self_equal]. rewrite TypeOf_eqb_refl, forall2b_diag.
    now apply forallb_ext_Forall.
  - cbn [deepValueEqual self_equal]. rewrite TypeOf_eqb_refl, forall2b_diag.
    now apply forallb_ext_Forall.
  - cbn [deepValueEqual self_equal]. rewrite TypeOf_eqb_refl, Z.eqb_refl.
    reflexivity.
  - destruct x; try contradiction; cbn [deepValueEqual self_equal];
      rewrite ?TypeOf_eqb_refl; cbn [andb]; try reflexivity.
    + now destruct b.
    + apply Z.eqb_refl.
    + apply Z.eqb_refl.
    + apply SFeqb_diag.
    + apply String.eqb_refl.
    + rewrite !Z.eqb_refl. destruct (loc t) as [l|]; simpl;
        [apply Location_eqb_refl | reflexivity].
    + destruct data as [[a l]|]; [|reflexivity].
      now rewrite Nat.eqb_refl, Z.eqb_refl.
    + destruct data as [[a l]|]; [|reflexivity].
      now rewrite Nat.eqb_refl, Z.eqb_refl.
    + destruct target as [[a y]|]; [contradiction | reflexivity].
    + destruct queue as [[a n]|]; [apply Z.eqb_refl | reflexivity].
    + now destruct code.
Qed.

Lemma DeepEqual_diag (x : value) : DeepEqual x x = self_equal x.
Proof.
  destruct x; try reflexivity; unfold DeepEqual;
    rewrite TypeOf_eqb_refl; apply deepValueEqual_diag.
Qed.

(** ** Facts about the comparison engine *)

Lemma valid_op_cases (o : cmpOp) :
  valid_op o ->
  o = eq \/ o = ne \/ o = lt \/ o = lte \/ o = gt \/ o = gte.
Proof. unfold valid_op, eq, ne, lt, lte, gt, gte. lia. Qed.

Lemma ordering_op_cases {o : cmpOp} :
  ordering_op o -> o = lt \/ o = lte \/ o = gt \/ o = gte.
Proof. unfold ordering_op, lt, lte, gt, gte. lia. Qed.

Lemma valid_op_check {o : cmpOp} :
  valid_op o -> (o <? eq) || (o >? gte) = false.
Proof.
  unfold valid_op, eq, gte. intros H.
  apply orb_false_iff. split; [apply Z.ltb_ge | rewrite Z.gtb_ltb; apply Z.ltb_ge];
    lia.
Qed.

Lemma newCmpField_valid (o : cmpOp) (t : value) :
  valid_op o -> newCmpField o t = Ok (mkCmpField o t).
Proof. intros H. unfold newCmpField. now rewrite valid_op_check. Qed.

Lemma compareWith_valid (o : cmpOp) (x t : value) :
  valid_op o -> compareWith o x t = compare x (Some (mkCmpField o t)).
Proof. intros H. unfold compareWith. now rewrite newCmpField_valid. Qed.

Lemma cmpResult_None (ok : bool) (o : cmpOp) (x t : value) :
  cmpResult ok o x t = None <-> ok = true.
Proof. unfold cmpResult. destruct ok; simpl; split; congruence. Qed.

(** The branch of [compare] for each category of the left operand. *)
Lemma compare_signed (k : intKind) (n : Z) (c : cmpField) :
  valid_op (op c) -> compare (VInt k n) (Some c) = compareInt64 n c.
Proof.
  intros H. unfold compare. rewrite (valid_op_check H). now destruct k.
Qed.

Lemma compare_unsigned (k : uintKind) (n : Z) (c : cmpField) :
  valid_op (op c) -> k <> UPtr ->
  compare (VUint k n) (Some c) = compareUint64 n c.
Proof.
  intros H Hk. unfold compare. rewrite (valid_op_check H).
  destruct k; try reflexivity. congruence.
Qed.

Lemma compare_float (k : floatKind) (f : spec_float) (c : cmpField) :
  valid_op (op c) -> compare (VFloat k f) (Some c) = compareFloat64 f c.
Proof.
  intros H. unfold compare. rewrite (valid_op_check H). now destruct k.
Qed.

Lemma compare_string (s : string) (c : cmpField) :
  valid_op (op c) -> compare (VString s) (Some c) = compareString s c.
Proof. intros H. unfold compare. now rewrite (valid_op_check H). Qed.

Lemma compare_time (t : Time) (c : cmpField) :
  valid_op (op c) -> compare (VTime t) (Some c) = compareTime t c.
Proof. intros H. unfold compare. now rewrite (valid_op_check H). Qed.

Lemma compare_opaque (x : value) (c : cmpField) :
  valid_op (op c) -> category x = Opaque ->
  compare x (Some c) = compareInterface x c.
Proof.
  intros H Hx. unfold compare. rewrite (valid_op_check H).
  destruct x; try discriminate Hx; try reflexivity.
  destruct k; try discriminate Hx; reflexivity.
Qed.

Lemma valid_eq : valid_op eq.
Proof. unfold valid_op, eq, gte. lia. Qed.

Lemma valid_ne : valid_op ne.
Proof. unfold valid_op, eq, ne, gte. lia. Qed.

Lemma valid_lte : valid_op lte.
Proof. unfold valid_op, eq, lte, gte. lia. Qed.

Lemma valid_gte : valid_op gte.
Proof. unfold valid_op, eq, gte. lia. Qed.

Lemma ordering_op_valid {o : cmpOp} : ordering_op o -> valid_op o.
Proof. unfold ordering_op, valid_op, eq, lt, gte. lia. Qed.

(** The conversions succeed exactly on their own kinds. *)
Lemma toInt64_signed (k : intKind) (n : Z) : toInt64 (VInt k n) = Ok n.
Proof. now destruct k. Qed.

Lemma toUint64_unsigned (k : uintKind) (n : Z) :
  k <> UPtr -> toUint64 (VUint k n) = Ok n.
Proof. destruct k; try reflexivity; congruence. Qed.

Lemma toFloat64_float (k : floatKind) (f : spec_float) :
  toFloat64 (VFloat k f) = Ok f.
Proof. now destruct k. Qed.

Lemma toInt64_Ok (t : value) (n : Z) :
  toInt64 t = Ok n -> exists k, t = VInt k n.
Proof.
  destruct t; try discriminate; try (destruct k; discriminate).
  intros H. rewrite toInt64_signed in H. injection H as ->. now exists k.
Qed.

Lemma toUint64_Ok (t : value) (n : Z) :
  toUint64 t = Ok n -> exists k, k <> UPtr /\ t = VUint k n.
Proof.
  destruct t; try discriminate; try (destruct k; discriminate).
  destruct k; try discriminate; intros H; injection H as ->;
    eexists; (split; [|reflexivity]); discriminate.
Qed.

Lemma toFloat64_Ok (t : value) (f : spec_float) :
  toFloat64 t = Ok f -> exists k, t = VFloat k f.
Proof.
  destruct t; try discriminate; try (destruct k; discriminate).
  intros H. rewrite toFloat64_float in H. injection H as ->. now exists k.
Qed.

Lemma toString_Ok (t : value) (s : string) :
  toString t = Ok s -> t = VString s.
Proof.
  destruct t; try discriminate; try (destruct k; discriminate).
  intros H. now injection H as ->.
Qed.

Lemma toTime_Ok (t : value) (u : Time) : toTime t = Ok u -> t = VTime u.
Proof. destruct t; try discriminate. intros H. now injection H as ->. Qed.

Lemma cmpResult_negb (b : bool) (o o' : cmpOp) (x t x' t' : value) :
  cmpResult (negb b) o x t = None <-> cmpResult b o' x' t' <> None.
Proof. unfold cmpResult. destruct b; simpl; split; congruence. Qed.

Lemma compareInterface_eq (x t : value) :
  compareInterface x (mkCmpField eq t) = cmpResult (DeepEqual x t) eq x t.
Proof. reflexivity. Qed.

Lemma compareInterface_ne (x t : value) :
  compareInterface x (mkCmpField ne t) = cmpResult (negb (DeepEqual x t)) ne x t.
Proof. reflexivity. Qed.

(** ** The documented examples of the package, replayed on the model *)

(** [Run(Eq(3, 4))] prints the eq failure of 3 and 4. *)
Example example_Eq_ints :
  Run [Eq (VInt I0 3) (VInt I0 4)]
  = Ret (Some (fmt_Errorf "`%s` comparison failed: `%v` is not equal to `%v`"
                 [AStr "eq"; AVal (VInt I64 3); AVal (VInt I64 4)])).
Proof. reflexivity. Qed.

(** The first failure of [Eq(1, 1), Eq("a", "a"), Eq(abc, abd),
    Eq([]string{}, nil)] is the one of the two slices. *)
Example example_Eq_slices :
  Run [Eq (VInt I0 1) (VInt I0 1); Eq (VString "a") (VString "a");
       Eq (strings_abc 1) (strings_abd 2);
       Eq (VSlice TString (Some (3, []))) VNil]
  = Ret (Some (fmt_Errorf "`%s` comparison failed: `%v` is not equal to `%v`"
                 [AStr "eq"; AVal (strings_abc 1); AVal (strings_abd 2)])).
Proof. reflexivity. Qed.

(** Two distinct slices with the same elements are equal: ne fails. *)
Example example_Ne_slices :
  Run [Ne (VInt I0 1) (VInt I0 2); Ne (VString "a") (VString "b");
       Ne (strings_abc 1) (strings_abc 2)]
  = Ret (Some (fmt_Errorf "`%s` comparison failed: `%v` is equal to `%v`"
                 [AStr "ne"; AVal (strings_abc 1); AVal (strings_abc 2)])).
Proof. reflexivity. Qed.

(** [Run(Between(2, 3, 4))] prints the gte failure of 2 and 3. *)
Example example_Between :
  Run [Between (VInt I0 2) (VInt I0 3) (VInt I0 4)]
  = Ret (Some (fmt_Errorf
                 "`%s` comparison failed: `%v` is not greater than or equal to `%v`"
                 [AStr "gte"; AVal (VInt I64 2); AVal (VInt I64 3)])).
Proof. reflexivity. Qed.

(** [Run(In("a", "b", "c", "d"))] and [Run(NotIn("a", "a", "c", "d"))]. *)
Example example_In :
  Run [In (VString "a") [VString "b"; VString "c"; VString "d"]]
  = Ret (Some (fmt_Errorf "`in` comparison failed: `%v` not in `%v`"
                 [AVal (VString "a");
                  AVals [VString "b"; VString "c"; VString "d"]])).
Proof. reflexivity. Qed.

Example example_NotIn :
  Run [NotIn (VString "a") [VString "a"; VString "c"; VString "d"]]
  = Ret (Some (fmt_Errorf "`not in` comparison failed: `%v` in `%v`"
                 [AVal (VString "a");
                  AVals [VString "a"; VString "c"; VString "d"]])).
Proof. reflexivity. Qed.

(** [Run(Required(email))] on the empty string prints "empty argument". *)
Example example_Required :
  Run [Required [VString ""]] = Ret (Some (errors_New "empty argument")).
Proof. reflexivity. Qed.

(** ** The claims of the specification *)

(** C1 (as amended).  [compare(x, eq, x)] succeeds exactly when [x] is
    equal to itself under the equality of its category: always for a
    signed integer, an unsigned integer, a string and a timestamp; for a
    float exactly when it is not NaN; for a structural value exactly when
    it holds no NaN and no non-nil function in itself, its struct fields
    and its array elements (a pointer, a slice and a map are equal to
    themselves by identity).  For every other value it fails with the eq
    comparison error, which carries the operator name and the operand
    twice. *)
Theorem compare_eq_reflexive (x : value) :
  (compare x (Some (mkCmpField eq x)) = None <-> self_equal x = true) /\
  compare x (Some (mkCmpField eq x)) =
  (if self_equal x then None
   else Some (fmt_Errorf "`%s` comparison failed: `%v` is not equal to `%v`"
                [AStr "eq"; AVal (as_compared x); AVal (as_compared x)])).
Proof.
  assert (E : compare x (Some (mkCmpField eq x)) =
              (if self_equal x then None
               else Some (fmt_Errorf
                            "`%s` comparison failed: `%v` is not equal to `%v`"
                            [AStr "eq"; AVal (as_compared x);
                             AVal (as_compared x)]))).
  { destruct (category x) eqn:Hc.
    - destruct x; try discriminate Hc; [|destruct k; discriminate Hc].
      rewrite compare_signed by exact valid_eq.
      unfold compareInt64. cbn [term op]. rewrite toInt64_signed.
      cbn [self_equal]. unfold cmpResult, switch_op. cbn.
      now rewrite Z.eqb_refl.
    - destruct x; try discriminate Hc.
      assert (Hk : k <> UPtr) by (intros ->; discriminate Hc).
      rewrite compare_unsigned by (exact valid_eq || exact Hk).
      unfold compareUint64. cbn [term op].
      rewrite toUint64_unsigned by exact Hk.
      cbn [self_equal]. unfold cmpResult, switch_op. cbn.
      now rewrite Z.eqb_refl.
    - destruct x; try discriminate Hc; [destruct k; discriminate Hc|].
      rewrite compare_float by exact valid_eq.
      unfold compareFloat64. cbn [term op]. rewrite toFloat64_float.
      cbn [self_equal as_compared]. rewrite <- SFeqb_diag.
      change (switch_op eq (SFeqb f f) (negb (SFeqb f f)) (SFltb f f)
                (SFleb f f) (SFltb f f) (SFleb f f)) with (SFeqb f f).
      unfold cmpResult. now destruct (SFeqb f f).
    - destruct x; try discriminate Hc; [destruct k; discriminate Hc|].
      rewrite compare_string by exact valid_eq.
      unfold compareString. cbn [term op toString kindOf Value_String].
      cbn [self_equal]. unfold cmpResult, switch_op. cbn.
      now rewrite String.eqb_refl.
    - destruct x; try discriminate Hc; [destruct k; discriminate Hc|].
      rewrite compare_time by exact valid_eq.
      unfold compareTime. cbn [term op toTime].
      cbn [self_equal]. unfold cmpResult, switch_op, Time_Equal. cbn.
      now rewrite !Z.eqb_refl.
    - rewrite compare_opaque by (exact valid_eq || exact Hc).
      rewrite compareInterface_eq, DeepEqual_diag.
      assert (Ha : as_compared x = x).
      { destruct x; try discriminate Hc; try reflexivity.
        destruct k; try discriminate Hc; reflexivity. }
      rewrite Ha. unfold cmpResult. now destruct (self_equal x). }
  split; [|exact E].
  rewrite E. destruct (self_equal x); split; congruence.
Qed.

(** C1, the claim as stated fails: NaN is not equal to itself. *)
Lemma compare_eq_nan_fails :
  compare (VFloat F64 S754_nan) (Some (mkCmpField eq (VFloat F64 S754_nan)))
  = Some (fmt_Errorf "`%s` comparison failed: `%v` is not equal to `%v`"
            [AStr "eq"; AVal (VFloat F64 S754_nan); AVal (VFloat F64 S754_nan)]).
Proof. reflexivity. Qed.

(** C2.  With a signed integer on the left and a string on the right,
    every comparison fails with the int64 conversion error that names the
    kind of the rejected operand, [string]; no comparison takes place.
    The right operand is converted to the category of the left one and
    never the reverse: with the operands exchanged it is the integer that
    is rejected, by the string conversion. *)
Theorem compare_signed_with_string (k : intKind) (n : Z) (s : string)
    (o : cmpOp) :
  valid_op o ->
  compareWith o (VInt k n) (VString s)
  = Some (fmt_Errorf "cannot convert `%v` to type int64" [AKind KString]) /\
  compare (VInt k n) (Some (mkCmpField o (VString s)))
  = Some (fmt_Errorf "cannot convert `%v` to type int64" [AKind KString]) /\
  compare (VString s) (Some (mkCmpField o (VInt k n)))
  = Some (fmt_Errorf "cannot convert `%v` to type string"
            [AKind (kind_of_int k)]).
Proof.
  intros H.
  rewrite compareWith_valid, compare_signed, compare_string by exact H.
  repeat split; try reflexivity.
  unfold compareString. now destruct k.
Qed.

(** C2 at [Lt(3, "3")]. *)
Lemma compare_signed_with_string_witness :
  valid_op lt /\
  Lt (VInt I0 3) (VString "3") tt
  = Ret (Some (fmt_Errorf "cannot convert `%v` to type int64" [AKind KString])).
Proof.
  assert (H : valid_op lt) by (unfold valid_op, eq, lt, gte; lia).
  split; [exact H|].
  unfold Lt. rewrite (proj1 (compare_signed_with_string I0 3 "3" lt H)).
  reflexivity.
Defined.

(** C3.  On a structural (opaque) left operand, each ordering operator
    lt, lte, gt, gte fails with the invalid-operation error that carries
    the operator's name and both operands; eq and ne are decided by deep
    equality. *)
Theorem compare_opaque_ordering (x t : value) (o : cmpOp) :
  category x = Opaque ->
  ordering_op o ->
  compare x (Some (mkCmpField o t))
  = Some (fmt_Errorf "invalid operation `%s` for values `%v` and `%v`"
            [AStr (cmpOps o); AVal x; AVal t]) /\
  List.In (cmpOps o) ["lt"; "lte"; "gt"; "gte"] /\
  (compare x (Some (mkCmpField eq t)) = None <-> DeepEqual x t = true) /\
  (compare x (Some (mkCmpField ne t)) = None <-> DeepEqual x t = false).
Proof.
  intros Hc Ho.
  rewrite !compare_opaque
    by (exact Hc || exact valid_eq || exact valid_ne
        || exact (ordering_op_valid Ho)).
  rewrite compareInterface_eq, compareInterface_ne, !cmpResult_None.
  rewrite negb_true_iff.
  repeat split; try tauto;
    destruct (ordering_op_cases Ho) as [-> | [-> | [-> | ->]]];
    try reflexivity; simpl; tauto.
Qed.

(** C3 at two slices of strings under lt. *)
Lemma compare_opaque_ordering_witness :
  category (VSlice TString (Some (1, [VString "a"]))) = Opaque /\
  ordering_op lt /\
  compare (VSlice TString (Some (1, [VString "a"])))
          (Some (mkCmpField lt (VSlice TString (Some (2, [VString "b"])))))
  = Some (fmt_Errorf "invalid operation `%s` for values `%v` and `%v`"
            [AStr "lt"; AVal (VSlice TString (Some (1, [VString "a"])));
             AVal (VSlice TString (Some (2, [VString "b"])))]).
Proof.
  split; [reflexivity|]. split; [unfold ordering_op, lt, gte; lia|].
  apply (compare_opaque_ordering
           (VSlice TString (Some (1, [VString "a"])))
           (VSlice TString (Some (2, [VString "b"]))) lt).
  - reflexivity.
  - unfold ordering_op, lt, gte. lia.
Defined.

(** C4 (as amended).  When the right operand converts to the category of
    the left one, [compare(x, ne, term)] succeeds if and only if
    [compare(x, eq, term)] fails. *)
Theorem compare_ne_iff_eq_fails (x t : value) :
  term_converts x t = true ->
  (compare x (Some (mkCmpField ne t)) = None <->
   compare x (Some (mkCmpField eq t)) <> None).
Proof.
  unfold term_converts. destruct (category x) eqn:Hc.
  - destruct x; try discriminate Hc; [|destruct k; discriminate Hc].
    rewrite !compare_signed by (exact valid_eq || exact valid_ne).
    unfold compareInt64. cbn [term op].
    destruct (toInt64 t); [intros _|discriminate]. apply cmpResult_negb.
  - destruct x; try discriminate Hc.
    assert (Hk : k <> UPtr) by (intros ->; discriminate Hc).
    rewrite !compare_unsigned by (exact valid_eq || exact valid_ne || exact Hk).
    unfold compareUint64. cbn [term op].
    destruct (toUint64 t); [intros _|discriminate]. apply cmpResult_negb.
  - destruct x; try discriminate Hc; [destruct k; discriminate Hc|].
    rewrite !compare_float by (exact valid_eq || exact valid_ne).
    unfold compareFloat64. cbn [term op].
    destruct (toFloat64 t); [intros _|discriminate]. apply cmpResult_negb.
  - destruct x; try discriminate Hc; [destruct k; discriminate Hc|].
    rewrite !compare_string by (exact valid_eq || exact valid_ne).
    unfold compareString. cbn [term op].
    destruct (toString t); [intros _|discriminate]. apply cmpResult_negb.
  - destruct x; try discriminate Hc; [destruct k; discriminate Hc|].
    rewrite !compare_time by (exact valid_eq || exact valid_ne).
    unfold compareTime. cbn [term op].
    destruct (toTime t); [intros _|discriminate]. apply cmpResult_negb.
  - intros _.
    rewrite !compare_opaque by (exact valid_eq || exact valid_ne || exact Hc).
    rewrite compareInterface_eq, compareInterface_ne. apply cmpResult_negb.
Qed.

(** C4 (as amended) at 3 and 4. *)
Lemma compare_ne_iff_eq_fails_witness :
  term_converts (VInt I0 3) (VInt I0 4) = true /\
  compare (VInt I0 3) (Some (mkCmpField ne (VInt I0 4))) = None.
Proof.
  split; [reflexivity|].
  apply (compare_ne_iff_eq_fails (VInt I0 3) (VInt I0 4)); [reflexivity|].
  simpl. discriminate.
Defined.

(** C4, the claim as stated fails: when the right operand does not
    convert, eq and ne both fail, with the same conversion error. *)
Lemma compare_ne_and_eq_both_fail :
  compare (VInt I0 3) (Some (mkCmpField ne (VString "3")))
  = Some (fmt_Errorf "cannot convert `%v` to type int64" [AKind KString]) /\
  compare (VInt I0 3) (Some (mkCmpField eq (VString "3")))
  = Some (fmt_Errorf "cannot convert `%v` to type int64" [AKind KString]).
Proof. split; reflexivity. Qed.

(** [Between] is the gte comparison with the lower bound and, only when
    that one succeeds, the lte comparison with the upper bound. *)
Lemma Between_unfold (x lower upper : value) :
  Between x lower upper tt =
  match compare x (Some (mkCmpField gte lower)) with
  | Some err => Ret (Some err)
  | None => Ret (compare x (Some (mkCmpField lte upper)))
  end.
Proof. reflexivity. Qed.

Lemma instant_le_After_Equal (t u : Time) :
  valid_time t -> valid_time u ->
  (Time_After t u || Time_Equal t u = true <-> instant u <= instant t).
Proof.
  unfold valid_time, instant, Time_After, Time_Equal. intros Ht Hu.
  rewrite !orb_true_iff, !andb_true_iff, !Z.gtb_ltb, !Z.ltb_lt, !Z.eqb_eq.
  lia.
Qed.

Lemma instant_le_Before_Equal (t u : Time) :
  valid_time t -> valid_time u ->
  (Time_Before t u || Time_Equal t u = true <-> instant t <= instant u).
Proof.
  unfold valid_time, instant, Time_Before, Time_Equal. intros Ht Hu.
  rewrite !orb_true_iff, !andb_true_iff, !Z.ltb_lt, !Z.eqb_eq.
  lia.
Qed.

(** On operands of one orderable category, the gte and lte comparisons
    decide the native order of the category. *)
Lemma compare_gte_native {x t : value} :
  category x <> Opaque -> category t = category x ->
  valid_value x -> valid_value t ->
  (compare x (Some (mkCmpField gte t)) = None <-> native_le t x = true).
Proof.
  intros Hx Ht Vx Vt. unfold native_le. rewrite Ht.
  destruct (category x) eqn:Hc; [| | | | |congruence]; clear Hx.
  - destruct x; try discriminate Hc; [|destruct k; discriminate Hc].
    destruct t; try discriminate Ht; [|destruct k0; discriminate Ht].
    rewrite compare_signed by exact valid_gte.
    unfold compareInt64. cbn [term op]. rewrite toInt64_signed.
    rewrite cmpResult_None. cbn. now rewrite Z.geb_leb.
  - destruct x; try discriminate Hc.
    assert (Hk : k <> UPtr) by (intros ->; discriminate Hc).
    destruct t; try discriminate Ht.
    assert (Hk0 : k0 <> UPtr) by (intros ->; discriminate Ht).
    rewrite compare_unsigned by (exact valid_gte || exact Hk).
    unfold compareUint64. cbn [term op]. rewrite toUint64_unsigned by exact Hk0.
    rewrite cmpResult_None. cbn. now rewrite Z.geb_leb.
  - destruct x; try discriminate Hc; [destruct k; discriminate Hc|].
    destruct t; try discriminate Ht; [destruct k0; discriminate Ht|].
    rewrite compare_float by exact valid_gte.
    unfold compareFloat64. cbn [term op]. rewrite toFloat64_float.
    rewrite cmpResult_None. reflexivity.
  - destruct x; try discriminate Hc; [destruct k; discriminate Hc|].
    destruct t; try discriminate Ht; [destruct k; discriminate Ht|].
    rewrite compare_string by exact valid_gte.
    unfold compareString. cbn [term op toString kindOf Value_String].
    rewrite cmpResult_None. reflexivity.
  - destruct x; try discriminate Hc; [destruct k; discriminate Hc|].
    destruct t; try discriminate Ht; [destruct k; discriminate Ht|].
    rewrite compare_time by exact valid_gte.
    unfold compareTime. cbn [term op toTime]. rewrite cmpResult_None.
    cbn [switch_op]. change (switch_op gte) with (fun (_ _ _ _ _ b : bool) => b).
    cbn beta. rewrite Z.leb_le. now apply instant_le_After_Equal.
Qed.

Lemma compare_lte_native {x t : value} :
  category x <> Opaque -> category t = category x ->
  valid_value x -> valid_value t ->
  (compare x (Some (mkCmpField lte t)) = None <-> native_le x t = true).
Proof.
  intros Hx Ht Vx Vt. unfold native_le. rewrite Ht.
  destruct (category x) eqn:Hc; [| | | | |congruence]; clear Hx.
  - destruct x; try discriminate Hc; [|destruct k; discriminate Hc].
    destruct t; try discriminate Ht; [|destruct k0; discriminate Ht].
    rewrite compare_signed by exact valid_lte.
    unfold compareInt64. cbn [term op]. rewrite toInt64_signed.
    rewrite cmpResult_None. reflexivity.
  - destruct x; try discriminate Hc.
    assert (Hk : k <> UPtr) by (intros ->; discriminate Hc).
    destruct t; try discriminate Ht.
    assert (Hk0 : k0 <> UPtr) by (intros ->; discriminate Ht).
    rewrite compare_unsigned by (exact valid_lte || exact Hk).
    unfold compareUint64. cbn [term op]. rewrite toUint64_unsigned by exact Hk0.
    rewrite cmpResult_None. reflexivity.
  - destruct x; try discriminate Hc; [destruct k; discriminate Hc|].
    destruct t; try discriminate Ht; [destruct k0; discriminate Ht|].
    rewrite compare_float by exact valid_lte.
    unfold compareFloat64. cbn [term op]. rewrite toFloat64_float.
    rewrite cmpResult_None. reflexivity.
  - destruct x; try discriminate Hc; [destruct k; discriminate Hc|].
    destruct t; try discriminate Ht; [destruct k; discriminate Ht|].
    rewrite compare_string by exact valid_lte.
    unfold compareString. cbn [term op toString kindOf Value_String].
    rewrite cmpResult_None. reflexivity.
  - destruct x; try discriminate Hc; [destruct k; discriminate Hc|].
    destruct t; try discriminate Ht; [destruct k; discriminate Ht|].
    rewrite compare_time by exact valid_lte.
    unfold compareTime. cbn [term op toTime]. rewrite cmpResult_None.
    change (switch_op lte) with (fun (_ _ _ b _ _ : bool) => b).
    cbn beta. rewrite Z.leb_le. now apply instant_le_Before_Equal.
Qed.

(** C5.  For x, lower and upper of one orderable category, [Between]
    succeeds if and only if lower <= x and x <= upper in the native order
    of the category.  The lower bound is compared first: when that
    comparison fails its error is the result, whatever the upper bound
    is, so the upper bound is not looked at. *)
Theorem Between_in_range (x lower upper : value) :
  category x <> Opaque ->
  category lower = category x ->
  category upper = category x ->
  valid_value x -> valid_value lower -> valid_value upper ->
  (Between x lower upper tt = Ret None <->
   native_le lower x = true /\ native_le x upper = true) /\
  (forall err upper',
     compare x (Some (mkCmpField gte lower)) = Some err ->
     Between x lower upper' tt = Ret (Some err)).
Proof.
  intros Hx Hl Hu Vx Vl Vu. split.
  - rewrite Between_unfold.
    rewrite <- (compare_gte_native Hx Hl Vx Vl).
    rewrite <- (compare_lte_native Hx Hu Vx Vu).
    destruct (compare x (Some (mkCmpField gte lower))) as [e|].
    + split; [discriminate | intros [H _]; discriminate H].
    + split; [intros H; injection H as H; now split | intros [_ ->]; reflexivity].
  - intros err upper' H. rewrite Between_unfold, H. reflexivity.
Qed.

(** C5 at 5 between 1 and 10. *)
Lemma Between_in_range_witness :
  native_le (VInt I0 1) (VInt I0 5) = true /\
  native_le (VInt I0 5) (VInt I0 10) = true /\
  Between (VInt I0 5) (VInt I0 1) (VInt I0 10) tt = Ret None.
Proof.
  split; [reflexivity|]. split; [reflexivity|].
  apply (proj1 (Between_in_range (VInt I0 5) (VInt I0 1) (VInt I0 10)
                  ltac:(discriminate) eq_refl eq_refl I I I)).
  split; reflexivity.
Defined.

(** C6.  [Required] on the empty string fails with the empty-argument
    error and succeeds on "a"; on a slice of strings it fails when the
    slice is empty and succeeds when it has an element, even an empty
    string: only the length of the slice counts. *)
Theorem Required_string_and_slice :
  Required [VString ""] tt = Ret (Some (errors_New "empty argument")) /\
  Required [VString "a"] tt = Ret None /\
  (forall a, Required [VSlice TString (Some (a, []))] tt
             = Ret (Some (errors_New "empty argument"))) /\
  (forall a, Required [VSlice TString (Some (a, [VString ""]))] tt = Ret None) /\
  (forall t a y l, Required [VSlice t (Some (a, y :: l))] tt = Ret None).
Proof.
  repeat split; intros; reflexivity.
Qed.

(** C7.  Timestamps are compared by instant: each operator succeeds
    exactly when the instants stand in the corresponding relation, the
    result of no operator depends on the location of either operand, and
    a timestamp is eq to itself displayed in any other location. *)
Theorem compare_time_by_instant (t u : Time) :
  valid_time t -> valid_time u ->
  (compare (VTime t) (Some (mkCmpField eq (VTime u))) = None
   <-> instant t = instant u) /\
  (compare (VTime t) (Some (mkCmpField ne (VTime u))) = None
   <-> instant t <> instant u) /\
  (compare (VTime t) (Some (mkCmpField lt (VTime u))) = None
   <-> instant t < instant u) /\
  (compare (VTime t) (Some (mkCmpField lte (VTime u))) = None
   <-> instant t <= instant u) /\
  (compare (VTime t) (Some (mkCmpField gt (VTime u))) = None
   <-> instant t > instant u) /\
  (compare (VTime t) (Some (mkCmpField gte (VTime u))) = None
   <-> instant t >= instant u) /\
  (forall o l1 l2,
     compare (VTime (Time_In t l1)) (Some (mkCmpField o (VTime (Time_In u l2))))
     = None
     <-> compare (VTime t) (Some (mkCmpField o (VTime u))) = None) /\
  (forall l, compare (VTime t) (Some (mkCmpField eq (VTime (Time_In t l)))) = None).
Proof.
  intros Ht Hu.
  assert (E : forall o a b,
             compare (VTime a) (Some (mkCmpField o (VTime b))) = None <->
             (if (o <? eq) || (o >? gte) then false
              else switch_op o (Time_Equal a b) (negb (Time_Equal a b))
                     (Time_Before a b) (Time_Before a b || Time_Equal a b)
                     (Time_After a b) (Time_After a b || Time_Equal a b)) = true).
  { intros o a b. unfold compare. cbn [op kindOf toTime].
    destruct ((o <? eq) || (o >? gte)); [split; discriminate|].
    unfold compareTime. cbn [term op toTime]. apply cmpResult_None. }
  pose proof (instant_le_After_Equal t u Ht Hu) as Hge.
  pose proof (instant_le_Before_Equal t u Ht Hu) as Hle.
  assert (Heq : Time_Equal t u = true <-> instant t = instant u).
  { unfold valid_time, instant, Time_Equal in *.
    rewrite andb_true_iff, !Z.eqb_eq. lia. }
  assert (Hlt : Time_Before t u = true <-> instant t < instant u).
  { unfold valid_time, instant, Time_Before in *.
    rewrite orb_true_iff, andb_true_iff, !Z.ltb_lt, Z.eqb_eq. lia. }
  assert (Hgt : Time_After t u = true <-> instant t > instant u).
  { unfold valid_time, instant, Time_After in *.
    rewrite orb_true_iff, andb_true_iff, !Z.gtb_ltb, !Z.ltb_lt, Z.eqb_eq. lia. }
  split; [rewrite E; exact Heq|].
  split; [rewrite E; change (negb (Time_Equal t u) = true <-> instant t <> instant u);
          rewrite negb_true_iff, <- Heq; destruct (Time_Equal t u);
          split; congruence|].
  split; [rewrite E; exact Hlt|].
  split; [rewrite E; exact Hle|].
  split; [rewrite E; exact Hgt|].
  split; [rewrite E;
          change (Time_After t u || Time_Equal t u = true
                  <-> instant t >= instant u);
          rewrite Hge; lia|].
  split.
  - intros o l1 l2. rewrite !E. reflexivity.
  - intros l. apply E.
    change (Time_Equal t (Time_In t l) = true).
    unfold Time_Equal, Time_In. cbn [sec nsec]. now rewrite !Z.eqb_refl.
Qed.

(** C7 at one instant seen from UTC and from a zone one hour ahead. *)
Lemma compare_time_by_instant_witness :
  compare (VTime (mkTime 10 5 None))
          (Some (mkCmpField eq
                   (VTime (mkTime 10 5 (Some (mkLocation "CET" 3600))))))
  = None.
Proof.
  assert (H1 : valid_time (mkTime 10 5 None))
    by (unfold valid_time; simpl; lia).
  assert (H2 : valid_time (mkTime 10 5 (Some (mkLocation "CET" 3600))))
    by (unfold valid_time; simpl; lia).
  apply (proj1 (compare_time_by_instant _ _ H1 H2)). reflexivity.
Defined.

(** C8.  A typed nil pointer among the arguments of [Required], after
    arguments that are not empty, makes the evaluation panic: it returns
    neither the empty-argument error nor success. *)
Theorem Required_nil_pointer_panics (t : gotype) (before after : list value) :
  Forall (fun a => isEmpty a = Ret false) before ->
  isEmpty (VPtr t None) = Panic panic_Interface /\
  Required (before ++ VPtr t None :: after) tt = Panic panic_Interface.
Proof.
  intros H. split; [reflexivity|].
  unfold Required. induction H as [|a l Ha _ IH]; cbn [app Required_loop].
  - reflexivity.
  - now rewrite Ha.
Qed.

(** C8 at a nil [*int] after a non-empty string. *)
Lemma Required_nil_pointer_panics_witness :
  Forall (fun a => isEmpty a = Ret false) [VString "a"] /\
  Required [VString "a"; VPtr (TInt I0) None; VString ""] tt
  = Panic panic_Interface.
Proof.
  assert (H : Forall (fun a => isEmpty a = Ret false) [VString "a"])
    by (repeat constructor).
  split; [exact H|].
  exact (proj2 (Required_nil_pointer_panics (TInt I0) [VString "a"] [VString ""] H)).
Defined.

(** [In] succeeds exactly when the eq comparison with some candidate
    succeeds; a comparison that fails, for whatever reason, moves on. *)
Lemma In_loop_None (x : value) (elems rest : list value) :
  In_loop x elems rest = None <->
  Exists (fun c => compare x (Some (mkCmpField eq c)) = None) rest.
Proof.
  induction rest as [|c rest IH]; cbn [In_loop].
  - split; [discriminate | intros H; inversion H].
  - rewrite (newCmpField_valid eq c valid_eq).
    destruct (compare x (Some (mkCmpField eq c))) as [e|] eqn:E.
    + rewrite IH. split; [intros H; now apply Exists_cons_tl|].
      intros H. inversion H as [? ? H1|? ? H1]; subst; [congruence | exact H1].
    + split; [intros _; now apply Exists_cons_hd | reflexivity].
Qed.

Lemma In_loop_Some (x : value) (elems rest : list value) (err : error) :
  In_loop x elems rest = Some err ->
  err = fmt_Errorf "`in` comparison failed: `%v` not in `%v`"
          [AVal x; AVals elems].
Proof.
  induction rest as [|c rest IH]; cbn [In_loop].
  - intros H. now injection H as <-.
  - rewrite (newCmpField_valid eq c valid_eq).
    destruct (compare x (Some (mkCmpField eq c))); [exact IH | discriminate].
Qed.

(** [NotIn] succeeds exactly when the eq comparison fails with every
    candidate, for whatever reason. *)
Lemma NotIn_loop_None (x : value) (elems rest : list value) :
  NotIn_loop x elems rest = None <->
  Forall (fun c => compare x (Some (mkCmpField eq c)) <> None) rest.
Proof.
  induction rest as [|c rest IH]; cbn [NotIn_loop].
  - split; [constructor | reflexivity].
  - rewrite (newCmpField_valid eq c valid_eq).
    destruct (compare x (Some (mkCmpField eq c))) as [e|] eqn:E.
    + rewrite IH. split; [intros H; constructor; [congruence | exact H]|].
      intros H. now inversion H.
    + split; [discriminate|]. intros H. inversion H; subst. congruence.
Qed.

Lemma NotIn_loop_Some (x : value) (elems rest : list value) (err : error) :
  NotIn_loop x elems rest = Some err ->
  err = fmt_Errorf "`not in` comparison failed: `%v` in `%v`"
          [AVal x; AVals elems].
Proof.
  induction rest as [|c rest IH]; cbn [NotIn_loop].
  - discriminate.
  - rewrite (newCmpField_valid eq c valid_eq).
    destruct (compare x (Some (mkCmpField eq c)));
      [exact IH | intros H; now injection H as <-].
Qed.

Lemma Ret_inj {A : Type} (a b : A) : Ret a = Ret b <-> a = b.
Proof. split; [intros H; now injection H | intros ->; reflexivity]. Qed.

(** C10.  A candidate whose eq comparison with x returns an error, such
    as the conversion error of a candidate of another category, counts
    as a non-match for [In] and [NotIn]: the loop goes on with the later
    candidates, the outcome is the one without that candidate, and the
    only errors [In] and [NotIn] return are their own: the error of the
    candidate never reaches the caller. *)
Theorem In_NotIn_skip_failed_candidate (x c : value) (err : error) :
  compare x (Some (mkCmpField eq c)) = Some err ->
  (forall elems rest,
     In_loop x elems (c :: rest) = In_loop x elems rest /\
     NotIn_loop x elems (c :: rest) = NotIn_loop x elems rest) /\
  (forall before after,
     In x (before ++ c :: after) tt = Ret None <->
     In x (before ++ after) tt = Ret None) /\
  (forall before after,
     NotIn x (before ++ c :: after) tt = Ret None <->
     NotIn x (before ++ after) tt = Ret None) /\
  (forall elems e,
     In x elems tt = Ret (Some e) ->
     e = fmt_Errorf "`in` comparison failed: `%v` not in `%v`"
           [AVal x; AVals elems]) /\
  (forall elems e,
     NotIn x elems tt = Ret (Some e) ->
     e = fmt_Errorf "`not in` comparison failed: `%v` in `%v`"
           [AVal x; AVals elems]).
Proof.
  intros Hc. repeat split.
  - cbn [In_loop]. now rewrite (newCmpField_valid eq c valid_eq), Hc.
  - cbn [NotIn_loop]. now rewrite (newCmpField_valid eq c valid_eq), Hc.
  - unfold In. rewrite !Ret_inj, !In_loop_None, !Exists_app, Exists_cons.
    intros [H | [H | H]]; [now left | congruence | now right].
  - unfold In. rewrite !Ret_inj, !In_loop_None, !Exists_app, Exists_cons.
    intros [H | H]; [now left | now right; right].
  - unfold NotIn. rewrite !Ret_inj, !NotIn_loop_None, !Forall_app.
    intros [H1 H2]. split; [exact H1 | now inversion H2].
  - unfold NotIn. rewrite !Ret_inj, !NotIn_loop_None, !Forall_app.
    intros [H1 H2]. split; [exact H1|]. constructor; [congruence | exact H2].
  - unfold In. intros elems e H. injection H as H.
    now apply In_loop_Some in H.
  - unfold NotIn. intros elems e H. injection H as H.
    now apply NotIn_loop_Some in H.
Qed.

(** C10 at [In(3, "a", 3)] and [NotIn(3, "a")]. *)
Lemma In_NotIn_skip_failed_candidate_witness :
  compare (VInt I0 3) (Some (mkCmpField eq (VString "a")))
  = Some (fmt_Errorf "cannot convert `%v` to type int64" [AKind KString]) /\
  In (VInt I0 3) [VString "a"; VInt I0 3] tt = Ret None /\
  NotIn (VInt I0 3) [VString "a"] tt = Ret None.
Proof.
  assert (H : compare (VInt I0 3) (Some (mkCmpField eq (VString "a")))
              = Some (fmt_Errorf "cannot convert `%v` to type int64"
                        [AKind KString])) by reflexivity.
  split; [exact H|].
  destruct (In_NotIn_skip_failed_candidate (VInt I0 3) (VString "a") _ H)
    as (_ & HIn & HNotIn & _).
  split.
  - apply (HIn [] [VInt I0 3]). reflexivity.
  - apply (HNotIn [] []). reflexivity.
Defined.

(** ** White space and the format checks *)

(** No rune of a white-space string stops the scan for a non-space. *)
Lemma indexFunc_fuel_all_space (fuel : nat) (b : list Z) (i : Z) :
  List.forallb IsSpace (runes_fuel fuel b) = true ->
  indexFunc_fuel fuel IsSpace false b i = -1.
Proof.
  revert b i. induction fuel as [|fuel IH]; intros b i; [reflexivity|].
  destruct b as [|z b]; [reflexivity|].
  cbn [runes_fuel indexFunc_fuel].
  destruct (DecodeRune (z :: b)) as [r w].
  cbn [List.forallb]. rewrite andb_true_iff. intros [Hr Hrest].
  rewrite Hr. cbn [Bool.eqb]. now apply IH.
Qed.

Lemma TrimSpace_all_space (s : string) : all_space s -> TrimSpace s = "".
Proof.
  unfold all_space, runes, TrimSpace, TrimLeftFunc, indexFunc. intros H.
  rewrite (indexFunc_fuel_all_space _ _ 0 H). reflexivity.
Qed.

Lemma isEmptyStr_all_space (s : string) : all_space s -> isEmptyStr s = true.
Proof.
  intros H. unfold isEmptyStr. now rewrite (TrimSpace_all_space s H).
Qed.

Lemma stripSpaces_all_space (s : string) : all_space s -> stripSpaces s = "".
Proof.
  unfold all_space, stripSpaces, strings_Map.
  induction (runes s) as [|r rs IH]; [reflexivity|].
  cbn [List.forallb List.map List.concat]. rewrite andb_true_iff.
  intros [Hr Hrs]. rewrite Hr. cbn [Z.geb Z.compare app]. now apply IH.
Qed.

Section FormatChecks.

Variable regexp_MatchString : string -> string -> result bool.
Variable mail_ParseAddress : string -> bool.
Variable regURL_MatchString : string -> bool.
Variable regIBAN_MatchString : string -> bool.
Variable regVAT_MatchString : string -> bool.
Variable net_ParseIP : string -> bool.
Variable net_ParseMAC : string -> bool.

(** C9.  A value made of white space only is empty for the format
    checks, whatever the pattern and whatever the parsers answer:
    [Matches] succeeds on it when the value is not required and fails
    with its empty-value error when it is required; the same test,
    [isEmptyStr], gates [Email], [EmailList], [URL], [IBAN], [VAT], [IP]
    and [MAC] in the same way. *)
Theorem whitespace_value_is_empty (s pattern : string) :
  all_space s ->
  isEmptyStr s = true /\
  Matches regexp_MatchString s pattern false tt = Ret None /\
  Matches regexp_MatchString s pattern true tt
  = Ret (Some (errors_New "match term cannot be empty")) /\
  Email mail_ParseAddress s false tt = Ret None /\
  Email mail_ParseAddress s true tt
  = Ret (Some (errors_New "email address cannot be empty")) /\
  EmailList mail_ParseAddress s false tt = Ret None /\
  EmailList mail_ParseAddress s true tt
  = Ret (Some (errors_New "email address list cannot be empty")) /\
  URL regURL_MatchString s false tt = Ret None /\
  URL regURL_MatchString s true tt
  = Ret (Some (errors_New "URL cannot be empty")) /\
  IBAN regIBAN_MatchString s false tt = Ret None /\
  IBAN regIBAN_MatchString s true tt
  = Ret (Some (errors_New "IBAN cannot be empty")) /\
  VAT regVAT_MatchString s false tt = Ret None /\
  VAT regVAT_MatchString s true tt
  = Ret (Some (errors_New "VAT number cannot be empty")) /\
  IP net_ParseIP s false tt = Ret None /\
  IP net_ParseIP s true tt
  = Ret (Some (errors_New "IP address cannot be empty")) /\
  MAC net_ParseMAC s false tt = Ret None /\
  MAC net_ParseMAC s true tt
  = Ret (Some (errors_New "MAC address cannot be empty")).
Proof.
  intros H.
  pose proof (isEmptyStr_all_space s H) as He.
  pose proof (stripSpaces_all_space s H) as Hs.
  unfold Matches, Email, EmailList, URL, IBAN, VAT, IP, MAC.
  rewrite Hs, He.
  repeat split; vm_compute; reflexivity.
Qed.

End FormatChecks.

(** C9 at a tab, a no-break space and a space, against a matcher that
    would reject the value. *)
Lemma whitespace_value_is_empty_witness :
  all_space (String (ascii_of 9) (String (ascii_of 0xC2) (String (ascii_of 0xA0) " "))) /\
  Matches (fun _ _ => Ok false)
    (String (ascii_of 9) (String (ascii_of 0xC2) (String (ascii_of 0xA0) " ")))
    "[0-9]+" true tt
  = Ret (Some (errors_New "match term cannot be empty")).
Proof.
  assert (H : all_space (String (ascii_of 9)
                (String (ascii_of 0xC2) (String (ascii_of 0xA0) " "))))
    by (vm_compute; reflexivity).
  split; [exact H|].
  exact (proj1 (proj2 (proj2
    (whitespace_value_is_empty (fun _ _ => Ok false) (fun _ => true)
       (fun _ => true) (fun _ => true) (fun _ => true) (fun _ => true)
       (fun _ => true) _ "[0-9]+" H)))).
Defined.

(** ** Further properties of the runner and of the presence check *)

(** [Run] returns the error of the first unit that fails and evaluates no
    unit after it; the units before it all succeeded. *)
Theorem Run_first_error (before after : list ValidateFunc)
    (vf : ValidateFunc) (err : error) :
  Forall (fun f : ValidateFunc => f tt = Ret None) before ->
  vf tt = Ret (Some err) ->
  Run (before ++ vf :: after) = Ret (Some err) /\ Run before = Ret None.
Proof.
  intros Hb Hvf. induction Hb as [|f l Hf _ [IH1 IH2]]; cbn [app Run].
  - now rewrite Hvf.
  - now rewrite Hf.
Qed.

(** [Run] at a failing unit followed by one that would panic. *)
Lemma Run_first_error_witness :
  Run [Eq (VInt I0 1) (VInt I0 1); Eq (VInt I0 3) (VInt I0 4);
       Required [VPtr (TInt I0) None]]
  = Ret (Some (fmt_Errorf "`%s` comparison failed: `%v` is not equal to `%v`"
                 [AStr "eq"; AVal (VInt I64 3); AVal (VInt I64 4)])).
Proof.
  apply (proj1 (Run_first_error [Eq (VInt I0 1) (VInt I0 1)]
                  [Required [VPtr (TInt I0) None]]
                  (Eq (VInt I0 3) (VInt I0 4)) _
                  ltac:(repeat constructor) eq_refl)).
Defined.

(** [Required] returns the empty-argument error at the first empty
    argument and does not look at the arguments after it; the arguments
    before it, alone, pass. *)
Theorem Required_first_empty (before after : list value) (a : value) :
  Forall (fun v => isEmpty v = Ret false) before ->
  isEmpty a = Ret true ->
  Required (before ++ a :: after) tt = Ret (Some errEmpty) /\
  Required before tt = Ret None.
Proof.
  intros Hb Ha. unfold Required.
  induction Hb as [|v l Hv _ [IH1 IH2]]; cbn [app Required_loop].
  - now rewrite Ha.
  - now rewrite Hv.
Qed.

(** [Required] at an empty string followed by a nil pointer. *)
Lemma Required_first_empty_witness :
  Required [VInt I0 7; VString ""; VPtr (TInt I0) None] tt
  = Ret (Some errEmpty).
Proof.
  apply (proj1 (Required_first_empty [VInt I0 7] [VPtr (TInt I0) None]
                  (VString "") ltac:(repeat constructor) eq_refl)).
Defined.

(** ** Further properties of the comparison engine *)

Lemma switch_op_eq (a b c d e f : bool) : switch_op eq a b c d e f = a.
Proof. reflexivity. Qed.

Lemma switch_op_ne (a b c d e f : bool) : switch_op ne a b c d e f = b.
Proof. reflexivity. Qed.

Lemma switch_op_lt (a b c d e f : bool) : switch_op lt a b c d e f = c.
Proof. reflexivity. Qed.

Lemma switch_op_lte (a b c d e f : bool) : switch_op lte a b c d e f = d.
Proof. reflexivity. Qed.

Lemma switch_op_gt (a b c d e f : bool) : switch_op gt a b c d e f = e.
Proof. reflexivity. Qed.

Lemma switch_op_gte (a b c d e f : bool) : switch_op gte a b c d e f = f.
Proof. reflexivity. Qed.

Lemma valid_lt : valid_op lt.
Proof. unfold valid_op, eq, lt, gte. lia. Qed.

Lemma valid_gt : valid_op gt.
Proof. unfold valid_op, eq, gt, gte. lia. Qed.

(** On two operands of one orderable category, [compare] succeeds
    exactly when the case of the operator in the typed comparison holds. *)
Lemma compare_ints_None (o : cmpOp) (k k' : intKind) (x t : Z) :
  valid_op o ->
  (compare (VInt k x) (Some (mkCmpField o (VInt k' t))) = None <->
   switch_op o (x =? t) (negb (x =? t)) (x <? t) (x <=? t) (x >? t) (x >=? t)
   = true).
Proof.
  intros H. rewrite compare_signed by exact H.
  unfold compareInt64. cbn [term op]. rewrite toInt64_signed.
  apply cmpResult_None.
Qed.

Lemma compare_uints_None (o : cmpOp) (k k' : uintKind) (x t : Z) :
  valid_op o -> k <> UPtr -> k' <> UPtr ->
  (compare (VUint k x) (Some (mkCmpField o (VUint k' t))) = None <->
   switch_op o (x =? t) (negb (x =? t)) (x <? t) (x <=? t) (x >? t) (x >=? t)
   = true).
Proof.
  intros H Hk Hk'. rewrite compare_unsigned by assumption.
  unfold compareUint64. cbn [term op]. rewrite toUint64_unsigned by exact Hk'.
  apply cmpResult_None.
Qed.

Lemma compare_floats_None (o : cmpOp) (k k' : floatKind) (x t : spec_float) :
  valid_op o ->
  (compare (VFloat k x) (Some (mkCmpField o (VFloat k' t))) = None <->
   switch_op o (SFeqb x t) (negb (SFeqb x t)) (SFltb x t) (SFleb x t)
     (SFltb t x) (SFleb t x) = true).
Proof.
  intros H. rewrite compare_float by exact H.
  unfold compareFloat64. cbn [term op]. rewrite toFloat64_float.
  apply cmpResult_None.
Qed.

Lemma compare_strings_None (o : cmpOp) (x t : string) :
  valid_op o ->
  (compare (VString x) (Some (mkCmpField o (VString t))) = None <->
   switch_op o (String.eqb x t) (negb (String.eqb x t)) (String.ltb x t)
     (String.leb x t) (String.ltb t x) (String.leb t x) = true).
Proof.
  intros H. rewrite compare_string by exact H.
  unfold compareString. cbn [term op toString kindOf Value_String].
  apply cmpResult_None.
Qed.

Lemma compare_times_None (o : cmpOp) (x t : Time) :
  valid_op o ->
  (compare (VTime x) (Some (mkCmpField o (VTime t))) = None <->
   switch_op o (Time_Equal x t) (negb (Time_Equal x t)) (Time_Before x t)
     (Time_Before x t || Time_Equal x t) (Time_After x t)
     (Time_After x t || Time_Equal x t) = true).
Proof.
  intros H. rewrite compare_time by exact H.
  unfold compareTime. cbn [term op toTime]. apply cmpResult_None.
Qed.

(** Two operands of one orderable category, by cases. *)
Lemma same_category_inv (x y : value) :
  category x <> Opaque -> category y = category x ->
  (exists k a k' b, x = VInt k a /\ y = VInt k' b) \/
  (exists k a k' b,
     k <> UPtr /\ k' <> UPtr /\ x = VUint k a /\ y = VUint k' b) \/
  (exists k a k' b, x = VFloat k a /\ y = VFloat k' b) \/
  (exists a b, x = VString a /\ y = VString b) \/
  (exists a b, x = VTime a /\ y = VTime b).
Proof.
  intros Hx Hy.
  destruct x; try (exfalso; apply Hx; reflexivity).
  - destruct y; try discriminate Hy; [|destruct k0; discriminate Hy].
    left. now exists k, n, k0, n0.
  - assert (Hk : k <> UPtr) by (intros ->; apply Hx; reflexivity).
    destruct y; try (destruct k; discriminate Hy || congruence).
    assert (Hk0 : k0 <> UPtr)
      by (intros ->; destruct k; discriminate Hy || congruence).
    right; left. now exists k, n, k0, n0.
  - destruct y; try discriminate Hy; [destruct k0; discriminate Hy|].
    right; right; left. now exists k, f, k0, f0.
  - destruct y; try discriminate Hy; [destruct k; discriminate Hy|].
    right; right; right; left. now exists s, s0.
  - destruct y; try discriminate Hy; [destruct k; discriminate Hy|].
    right; right; right; right. now exists t, t0.
Qed.

Lemma SFleb_ltb_eqb (x t : spec_float) : SFleb x t = SFltb x t || SFeqb x t.
Proof.
  unfold SFleb, SFltb, SFeqb. now destruct (SFcompare x t) as [[| |]|].
Qed.

Lemma SFcompare_antisym (x t : spec_float) :
  SFcompare t x = option_map CompOpp (SFcompare x t).
Proof.
  destruct x as [s|s| |s m e], t as [s'|s'| |s' m' e']; simpl;
    try reflexivity; try (destruct s; reflexivity);
    try (destruct s'; reflexivity); try (destruct s, s'; reflexivity).
  destruct s, s'; try reflexivity; simpl; rewrite (Z.compare_antisym e e');
    destruct (e ?= e') eqn:E; simpl; try reflexivity;
    rewrite (Pos.compare_cont_antisym m m' Datatypes.Eq); simpl;
    now rewrite ?CompOpp_involutive.
Qed.

Lemma SFeqb_sym (x t : spec_float) : SFeqb x t = SFeqb t x.
Proof.
  unfold SFeqb. rewrite (SFcompare_antisym x t).
  now destruct (SFcompare x t) as [[| |]|].
Qed.

Lemma SFltb_not_eqb (x t : spec_float) :
  SFltb x t = true -> SFeqb x t = false /\ SFltb t x = false.
Proof.
  unfold SFltb, SFeqb. rewrite (SFcompare_antisym x t).
  destruct (SFcompare x t) as [[| |]|]; simpl; intros H;
    (discriminate H || now split).
Qed.

Lemma string_compare_refl (s : string) : String.compare s s = Datatypes.Eq.
Proof.
  induction s as [|c s IH]; [reflexivity|]. simpl.
  unfold Ascii.compare. now rewrite N.compare_refl.
Qed.

Lemma string_eqb_compare (x t : string) :
  String.eqb x t = true <-> String.compare x t = Datatypes.Eq.
Proof.
  rewrite String.eqb_eq. split.
  - intros ->. apply string_compare_refl.
  - apply String.compare_eq_iff.
Qed.

Lemma string_ltb_compare (x t : string) :
  String.ltb x t = true <-> String.compare x t = Datatypes.Lt.
Proof.
  unfold String.ltb. destruct (String.compare x t); split; congruence.
Qed.

Lemma string_gtb_compare (x t : string) :
  String.ltb t x = true <-> String.compare x t = Datatypes.Gt.
Proof.
  unfold String.ltb. rewrite (String.compare_antisym t x).
  destruct (String.compare x t); simpl; split; congruence.
Qed.

Lemma string_leb_compare (x t : string) :
  String.leb x t = true <-> String.compare x t <> Datatypes.Gt.
Proof.
  unfold String.leb. destruct (String.compare x t); split; congruence.
Qed.

Lemma string_geb_compare (x t : string) :
  String.leb t x = true <-> String.compare x t <> Datatypes.Lt.
Proof.
  unfold String.leb. rewrite (String.compare_antisym t x).
  destruct (String.compare x t); simpl; split; congruence.
Qed.

(** On signed integers of any two widths each operator decides the
    corresponding relation of the two numbers. *)
Theorem compare_signed_integers (k k' : intKind) (x t : Z) :
  (compare (VInt k x) (Some (mkCmpField eq (VInt k' t))) = None <-> x = t) /\
  (compare (VInt k x) (Some (mkCmpField ne (VInt k' t))) = None <-> x <> t) /\
  (compare (VInt k x) (Some (mkCmpField lt (VInt k' t))) = None <-> x < t) /\
  (compare (VInt k x) (Some (mkCmpField lte (VInt k' t))) = None <-> x <= t) /\
  (compare (VInt k x) (Some (mkCmpField gt (VInt k' t))) = None <-> x > t) /\
  (compare (VInt k x) (Some (mkCmpField gte (VInt k' t))) = None <-> x >= t).
Proof.
  rewrite !compare_ints_None
    by (exact valid_eq || exact valid_ne || exact valid_lt || exact valid_lte
        || exact valid_gt || exact valid_gte).
  rewrite switch_op_eq, switch_op_ne, switch_op_lt, switch_op_lte,
    switch_op_gt, switch_op_gte.
  rewrite negb_true_iff, Z.eqb_eq, Z.eqb_neq, Z.ltb_lt, Z.leb_le, Z.gtb_ltb,
    Z.geb_leb, Z.ltb_lt, Z.leb_le.
  repeat split; lia.
Qed.

(** The same on unsigned integers of any two widths, [uintptr] apart. *)
Theorem compare_unsigned_integers (k k' : uintKind) (x t : Z) :
  k <> UPtr -> k' <> UPtr ->
  (compare (VUint k x) (Some (mkCmpField eq (VUint k' t))) = None <-> x = t) /\
  (compare (VUint k x) (Some (mkCmpField ne (VUint k' t))) = None <-> x <> t) /\
  (compare (VUint k x) (Some (mkCmpField lt (VUint k' t))) = None <-> x < t) /\
  (compare (VUint k x) (Some (mkCmpField lte (VUint k' t))) = None <-> x <= t) /\
  (compare (VUint k x) (Some (mkCmpField gt (VUint k' t))) = None <-> x > t) /\
  (compare (VUint k x) (Some (mkCmpField gte (VUint k' t))) = None <-> x >= t).
Proof.
  intros Hk Hk'.
  rewrite !compare_uints_None
    by (exact valid_eq || exact valid_ne || exact valid_lt || exact valid_lte
        || exact valid_gt || exact valid_gte || assumption).
  rewrite switch_op_eq, switch_op_ne, switch_op_lt, switch_op_lte,
    switch_op_gt, switch_op_gte.
  rewrite negb_true_iff, Z.eqb_eq, Z.eqb_neq, Z.ltb_lt, Z.leb_le, Z.gtb_ltb,
    Z.geb_leb, Z.ltb_lt, Z.leb_le.
  repeat split; lia.
Qed.

(** A [uint8] below a [uint64]. *)
Lemma compare_unsigned_integers_witness :
  compare (VUint U8 200) (Some (mkCmpField lt (VUint U64 18446744073709551615)))
  = None.
Proof.
  apply (proj1 (proj2 (proj2
    (compare_unsigned_integers U8 U64 200 18446744073709551615
       ltac:(discriminate) ltac:(discriminate))))).
  lia.
Defined.

Lemma compareInterface_ordering (x t : value) (o : cmpOp) :
  ordering_op o ->
  compareInterface x (mkCmpField o t)
  = Some (fmt_Errorf "invalid operation `%s` for values `%v` and `%v`"
            [AStr (cmpOps o); AVal x; AVal t]).
Proof.
  intros H. destruct (ordering_op_cases H) as [-> | [-> | [-> | ->]]];
    reflexivity.
Qed.

(** [uintptr] is not an unsigned integer for the engine: as right operand
    of an unsigned comparison it is rejected by the conversion, and as
    left operand it is compared structurally, so that every ordering
    operator is refused, also against another [uintptr]. *)
Theorem compare_uintptr (k : uintKind) (m n : Z) (t : value) (o : cmpOp) :
  valid_op o -> k <> UPtr ->
  compare (VUint k m) (Some (mkCmpField o (VUint UPtr n)))
  = Some (fmt_Errorf "cannot convert `%v` to type uint64" [AKind Uintptr]) /\
  (ordering_op o ->
   compare (VUint UPtr n) (Some (mkCmpField o t))
   = Some (fmt_Errorf "invalid operation `%s` for values `%v` and `%v`"
             [AStr (cmpOps o); AVal (VUint UPtr n); AVal t])) /\
  (compare (VUint UPtr n) (Some (mkCmpField eq (VUint UPtr m))) = None
   <-> n = m).
Proof.
  intros Ho Hk. split; [|split].
  - rewrite compare_unsigned by assumption. reflexivity.
  - intros Hord.
    rewrite compare_opaque by (exact Ho || reflexivity).
    now apply compareInterface_ordering.
  - rewrite compare_opaque by (exact valid_eq || reflexivity).
    rewrite compareInterface_eq, cmpResult_None. cbn. apply Z.eqb_eq.
Qed.

Lemma Category_eq_dec (a b : Category) : {a = b} + {a <> b}.
Proof. decide equality. Qed.

(** A [uintptr] against a [uint], in both positions. *)
Lemma compare_uintptr_witness :
  compare (VUint U0 5) (Some (mkCmpField lt (VUint UPtr 7)))
  = Some (fmt_Errorf "cannot convert `%v` to type uint64" [AKind Uintptr]) /\
  compare (VUint UPtr 7) (Some (mkCmpField lt (VUint U0 9)))
  = Some (fmt_Errorf "invalid operation `%s` for values `%v` and `%v`"
            [AStr "lt"; AVal (VUint UPtr 7); AVal (VUint U0 9)]).
Proof.
  destruct (compare_uintptr U0 5 7 (VUint U0 9) lt valid_lt
              ltac:(discriminate)) as (H1 & H2 & _).
  split; [exact H1|]. apply H2. unfold ordering_op, lt, gte. lia.
Defined.

Lemma convert_term_same (x t : value) :
  category x <> Opaque -> category t = category x ->
  convert_term (category x) t = None.
Proof.
  intros Hx Ht.
  destruct (same_category_inv x t Hx Ht)
    as [(k & a & k' & b & -> & ->)
       | [(k & a & k' & b & Hk & Hk' & -> & ->)
       | [(k & a & k' & b & -> & ->)
       | [(a & b & -> & ->) | (a & b & -> & ->)]]]].
  - cbn [category convert_term]. now rewrite toInt64_signed.
  - replace (category (VUint k a)) with UnsignedInteger
      by (destruct k; congruence || reflexivity).
    cbn [convert_term]. now rewrite toUint64_unsigned.
  - cbn [category convert_term]. now rewrite toFloat64_float.
  - reflexivity.
  - reflexivity.
Qed.

Lemma convert_term_other (x t : value) :
  category x <> Opaque -> category t <> category x ->
  exists err, convert_term (category x) t = Some err.
Proof.
  intros Hx Ht. unfold convert_term.
  destruct (category x) eqn:Hc; [| | | | |congruence].
  - destruct (toInt64 t) as [n|e] eqn:E; [|now exists e].
    apply toInt64_Ok in E as [k ->]. exfalso. now apply Ht.
  - destruct (toUint64 t) as [n|e] eqn:E; [|now exists e].
    apply toUint64_Ok in E as (k & Hk & ->). exfalso. apply Ht.
    destruct k; congruence || reflexivity.
  - destruct (toFloat64 t) as [n|e] eqn:E; [|now exists e].
    apply toFloat64_Ok in E as [k ->]. exfalso. now apply Ht.
  - destruct (toString t) as [n|e] eqn:E; [|now exists e].
    apply toString_Ok in E as ->. exfalso. now apply Ht.
  - destruct (toTime t) as [n|e] eqn:E; [|now exists e].
    apply toTime_Ok in E as ->. exfalso. now apply Ht.
Qed.

Lemma compare_convert_error (x t : value) (o : cmpOp) (err : error) :
  valid_op o -> convert_term (category x) t = Some err ->
  compare x (Some (mkCmpField o t)) = Some err.
Proof.
  intros Ho. unfold convert_term. destruct (category x) eqn:Hc.
  - destruct x; try discriminate Hc; [|destruct k; discriminate Hc].
    rewrite compare_signed by exact Ho. unfold compareInt64. cbn [term].
    destruct (toInt64 t); congruence.
  - destruct x; try discriminate Hc.
    assert (Hk : k <> UPtr) by (intros ->; discriminate Hc).
    rewrite compare_unsigned by assumption. unfold compareUint64. cbn [term].
    destruct (toUint64 t); congruence.
  - destruct x; try discriminate Hc; [destruct k; discriminate Hc|].
    rewrite compare_float by exact Ho. unfold compareFloat64. cbn [term].
    destruct (toFloat64 t); congruence.
  - destruct x; try discriminate Hc; [destruct k; discriminate Hc|].
    rewrite compare_string by exact Ho. unfold compareString. cbn [term].
    destruct (toString t); congruence.
  - destruct x; try discriminate Hc; [destruct k; discriminate Hc|].
    rewrite compare_time by exact Ho. unfold compareTime. cbn [term].
    destruct (toTime t); congruence.
  - discriminate.
Qed.

(** For a left operand of an orderable category, the right operand
    converts exactly when it is of the same category; when it is of
    another one, every operator, ne included, returns the error of the
    conversion and compares nothing. *)
Theorem compare_cross_category (x t : value) (o : cmpOp) :
  valid_op o -> category x <> Opaque ->
  (convert_term (category x) t = None <-> category t = category x) /\
  (category t <> category x ->
   exists err,
     convert_term (category x) t = Some err /\
     compare x (Some (mkCmpField o t)) = Some err).
Proof.
  intros Ho Hx. split; [split|].
  - intros H. destruct (Category_eq_dec (category t) (category x)) as [E|E];
      [exact E|].
    destruct (convert_term_other x t Hx E) as [err He]. congruence.
  - now apply convert_term_same.
  - intros Ht. destruct (convert_term_other x t Hx Ht) as [err He].
    exists err. split; [exact He | now apply compare_convert_error].
Qed.

(** A float against a string under ne. *)
Lemma compare_cross_category_witness :
  compare (VFloat F64 (S754_zero false)) (Some (mkCmpField ne (VString "0")))
  = Some (fmt_Errorf "cannot convert `%v` to type float64" [AKind KString]).
Proof.
  destruct (proj2 (compare_cross_category (VFloat F64 (S754_zero false))
                     (VString "0") ne valid_ne ltac:(discriminate))
              ltac:(discriminate)) as (err & He & Hc).
  injection He as <-. exact Hc.
Defined.

(** With NaN on either side of a float comparison every operator fails
    but ne, which succeeds. *)
Theorem compare_nan (k k' : floatKind) (f : spec_float) (o : cmpOp) :
  valid_op o ->
  (compare (VFloat k S754_nan) (Some (mkCmpField o (VFloat k' f))) = None
   <-> o = ne) /\
  (compare (VFloat k f) (Some (mkCmpField o (VFloat k' S754_nan))) = None
   <-> o = ne).
Proof.
  intros Ho. rewrite !compare_floats_None by exact Ho.
  assert (E1 : forall g, SFcompare S754_nan g = None) by reflexivity.
  assert (E2 : forall g, SFcompare g S754_nan = None)
    by (intros g; now destruct g).
  unfold SFeqb, SFltb, SFleb. rewrite !E1, !E2.
  destruct (valid_op_cases o Ho) as [-> | [-> | [-> | [-> | [-> | ->]]]]];
    split; split; (reflexivity || discriminate).
Qed.

(** NaN against NaN, of two widths, under ne. *)
Lemma compare_nan_witness :
  compare (VFloat F64 S754_nan) (Some (mkCmpField ne (VFloat F32 S754_nan)))
  = None.
Proof.
  apply (proj1 (compare_nan F64 F32 S754_nan ne valid_ne)). reflexivity.
Defined.

Lemma Time_Before_After (x t : Time) : Time_After t x = Time_Before x t.
Proof.
  unfold Time_After, Time_Before.
  now rewrite !Z.gtb_ltb, (Z.eqb_sym (sec t) (sec x)).
Qed.

Lemma Time_Equal_sym (x t : Time) : Time_Equal t x = Time_Equal x t.
Proof.
  unfold Time_Equal.
  now rewrite (Z.eqb_sym (sec t) (sec x)), (Z.eqb_sym (nsec t) (nsec x)).
Qed.

(** On two operands of one orderable category, lte succeeds exactly when
    lt or eq does, and gte exactly when gt or eq does. *)
Theorem compare_lte_gte_decompose (x t : value) :
  category x <> Opaque -> category t = category x ->
  (compare x (Some (mkCmpField lte t)) = None <->
   compare x (Some (mkCmpField lt t)) = None \/
   compare x (Some (mkCmpField eq t)) = None) /\
  (compare x (Some (mkCmpField gte t)) = None <->
   compare x (Some (mkCmpField gt t)) = None \/
   compare x (Some (mkCmpField eq t)) = None).
Proof.
  intros Hx Ht.
  destruct (same_category_inv x t Hx Ht)
    as [(k & a & k' & b & -> & ->)
       | [(k & a & k' & b & Hk & Hk' & -> & ->)
       | [(k & a & k' & b & -> & ->)
       | [(a & b & -> & ->) | (a & b & -> & ->)]]]].
  - rewrite !compare_ints_None
      by (exact valid_eq || exact valid_lt || exact valid_lte
          || exact valid_gt || exact valid_gte).
    rewrite switch_op_eq, switch_op_lt, switch_op_lte, switch_op_gt,
      switch_op_gte.
    rewrite Z.eqb_eq, Z.ltb_lt, Z.leb_le, Z.gtb_ltb, Z.geb_leb, Z.ltb_lt,
      Z.leb_le. lia.
  - rewrite !compare_uints_None
      by (exact valid_eq || exact valid_lt || exact valid_lte
          || exact valid_gt || exact valid_gte || assumption).
    rewrite switch_op_eq, switch_op_lt, switch_op_lte, switch_op_gt,
      switch_op_gte.
    rewrite Z.eqb_eq, Z.ltb_lt, Z.leb_le, Z.gtb_ltb, Z.geb_leb, Z.ltb_lt,
      Z.leb_le. lia.
  - rewrite !compare_floats_None
      by (exact valid_eq || exact valid_lt || exact valid_lte
          || exact valid_gt || exact valid_gte).
    rewrite switch_op_eq, switch_op_lt, switch_op_lte, switch_op_gt,
      switch_op_gte.
    rewrite !SFleb_ltb_eqb, !orb_true_iff, (SFeqb_sym b a). tauto.
  - rewrite !compare_strings_None
      by (exact valid_eq || exact valid_lt || exact valid_lte
          || exact valid_gt || exact valid_gte).
    rewrite switch_op_eq, switch_op_lt, switch_op_lte, switch_op_gt,
      switch_op_gte.
    rewrite string_leb_compare, string_geb_compare, string_ltb_compare,
      string_gtb_compare, string_eqb_compare.
    destruct (String.compare a b); split; split;
      intuition (congruence || discriminate).
  - rewrite !compare_times_None
      by (exact valid_eq || exact valid_lt || exact valid_lte
          || exact valid_gt || exact valid_gte).
    rewrite switch_op_eq, switch_op_lt, switch_op_lte, switch_op_gt,
      switch_op_gte.
    rewrite !orb_true_iff. tauto.
Qed.

(** Two equal floats of different widths pass lte through eq. *)
Lemma compare_lte_gte_decompose_witness :
  compare (VFloat F32 (S754_infinity false))
          (Some (mkCmpField lte (VFloat F64 (S754_infinity false))))
  = None.
Proof.
  apply (proj1 (compare_lte_gte_decompose (VFloat F32 (S754_infinity false))
                  (VFloat F64 (S754_infinity false))
                  ltac:(discriminate) eq_refl)).
  right. reflexivity.
Defined.

(** On two operands of one orderable category other than the floats,
    exactly one of lt, eq and gt succeeds. *)
Theorem compare_trichotomy (x t : value) :
  category x <> Opaque -> category x <> FloatingPoint ->
  category t = category x ->
  (compare x (Some (mkCmpField lt t)) = None \/
   compare x (Some (mkCmpField eq t)) = None \/
   compare x (Some (mkCmpField gt t)) = None) /\
  ~ (compare x (Some (mkCmpField lt t)) = None /\
     compare x (Some (mkCmpField eq t)) = None) /\
  ~ (compare x (Some (mkCmpField lt t)) = None /\
     compare x (Some (mkCmpField gt t)) = None) /\
  ~ (compare x (Some (mkCmpField eq t)) = None /\
     compare x (Some (mkCmpField gt t)) = None).
Proof.
  intros Hx Hf Ht.
  destruct (same_category_inv x t Hx Ht)
    as [(k & a & k' & b & -> & ->)
       | [(k & a & k' & b & Hk & Hk' & -> & ->)
       | [(k & a & k' & b & -> & ->)
       | [(a & b & -> & ->) | (a & b & -> & ->)]]]].
  - rewrite !compare_ints_None
      by (exact valid_eq || exact valid_lt || exact valid_gt).
    rewrite switch_op_eq, switch_op_lt, switch_op_gt.
    rewrite Z.eqb_eq, Z.ltb_lt, Z.gtb_ltb, Z.ltb_lt. lia.
  - rewrite !compare_uints_None
      by (exact valid_eq || exact valid_lt || exact valid_gt || assumption).
    rewrite switch_op_eq, switch_op_lt, switch_op_gt.
    rewrite Z.eqb_eq, Z.ltb_lt, Z.gtb_ltb, Z.ltb_lt. lia.
  - exfalso. now apply Hf.
  - rewrite !compare_strings_None
      by (exact valid_eq || exact valid_lt || exact valid_gt).
    rewrite switch_op_eq, switch_op_lt, switch_op_gt.
    rewrite string_ltb_compare, string_gtb_compare, string_eqb_compare.
    destruct (String.compare a b); repeat split;
      intuition (congruence || discriminate).
  - rewrite !compare_times_None
      by (exact valid_eq || exact valid_lt || exact valid_gt).
    rewrite switch_op_eq, switch_op_lt, switch_op_gt.
    unfold Time_Equal, Time_Before, Time_After.
    rewrite !orb_true_iff, !andb_true_iff, !Z.gtb_ltb, !Z.ltb_lt, !Z.eqb_eq.
    lia.
Qed.

(** The strings "abc" and "abd". *)
Lemma compare_trichotomy_witness :
  compare (VString "abc") (Some (mkCmpField lt (VString "abd"))) = None \/
  compare (VString "abc") (Some (mkCmpField eq (VString "abd"))) = None \/
  compare (VString "abc") (Some (mkCmpField gt (VString "abd"))) = None.
Proof.
  apply (compare_trichotomy (VString "abc") (VString "abd")
           ltac:(discriminate) ltac:(discriminate) eq_refl).
Defined.

(** Exchanging two operands of one orderable category exchanges lt with
    gt and lte with gte, and leaves eq and ne as they are. *)
Theorem compare_mirror (x t : value) :
  category x <> Opaque -> category t = category x ->
  (compare x (Some (mkCmpField lt t)) = None <->
   compare t (Some (mkCmpField gt x)) = None) /\
  (compare x (Some (mkCmpField lte t)) = None <->
   compare t (Some (mkCmpField gte x)) = None) /\
  (compare x (Some (mkCmpField eq t)) = None <->
   compare t (Some (mkCmpField eq x)) = None) /\
  (compare x (Some (mkCmpField ne t)) = None <->
   compare t (Some (mkCmpField ne x)) = None).
Proof.
  intros Hx Ht.
  destruct (same_category_inv x t Hx Ht)
    as [(k & a & k' & b & -> & ->)
       | [(k & a & k' & b & Hk & Hk' & -> & ->)
       | [(k & a & k' & b & -> & ->)
       | [(a & b & -> & ->) | (a & b & -> & ->)]]]].
  - rewrite !compare_ints_None
      by (exact valid_eq || exact valid_ne || exact valid_lt
          || exact valid_lte || exact valid_gt || exact valid_gte).
    rewrite !switch_op_eq, !switch_op_ne, switch_op_lt, switch_op_lte,
      switch_op_gt, switch_op_gte.
    rewrite !negb_true_iff, !Z.eqb_eq, !Z.eqb_neq, Z.ltb_lt, Z.leb_le,
      Z.gtb_ltb, Z.geb_leb, Z.ltb_lt, Z.leb_le. lia.
  - rewrite !compare_uints_None
      by (exact valid_eq || exact valid_ne || exact valid_lt
          || exact valid_lte || exact valid_gt || exact valid_gte
          || assumption).
    rewrite !switch_op_eq, !switch_op_ne, switch_op_lt, switch_op_lte,
      switch_op_gt, switch_op_gte.
    rewrite !negb_true_iff, !Z.eqb_eq, !Z.eqb_neq, Z.ltb_lt, Z.leb_le,
      Z.gtb_ltb, Z.geb_leb, Z.ltb_lt, Z.leb_le. lia.
  - rewrite !compare_floats_None
      by (exact valid_eq || exact valid_ne || exact valid_lt
          || exact valid_lte || exact valid_gt || exact valid_gte).
    rewrite !switch_op_eq, !switch_op_ne, switch_op_lt, switch_op_lte,
      switch_op_gt, switch_op_gte.
    rewrite (SFeqb_sym b a). tauto.
  - rewrite !compare_strings_None
      by (exact valid_eq || exact valid_ne || exact valid_lt
          || exact valid_lte || exact valid_gt || exact valid_gte).
    rewrite !switch_op_eq, !switch_op_ne, switch_op_lt, switch_op_lte,
      switch_op_gt, switch_op_gte.
    rewrite (String.eqb_sym b a). tauto.
  - rewrite !compare_times_None
      by (exact valid_eq || exact valid_ne || exact valid_lt
          || exact valid_lte || exact valid_gt || exact valid_gte).
    rewrite !switch_op_eq, !switch_op_ne, switch_op_lt, switch_op_lte,
      switch_op_gt, switch_op_gte.
    rewrite (Time_Before_After a b), (Time_Equal_sym a b). tauto.
Qed.

(** An earlier and a later timestamp. *)
Lemma compare_mirror_witness :
  compare (VTime (mkTime 20 0 None))
          (Some (mkCmpField gt (VTime (mkTime 10 5 None)))) = None.
Proof.
  apply (proj1 (compare_mirror (VTime (mkTime 10 5 None))
                  (VTime (mkTime 20 0 None)) ltac:(discriminate) eq_refl)).
  reflexivity.
Defined.

(** ** Further properties of the membership checks *)

(** [In] succeeds exactly when the eq comparison with some candidate
    succeeds, and [NotIn] succeeds exactly when [In] fails; on no
    candidate at all [In] fails and [NotIn] succeeds. *)
Theorem NotIn_iff_In_fails (x : value) (elems : list value) :
  (In x elems tt = Ret None <->
   Exists (fun c => compare x (Some (mkCmpField eq c)) = None) elems) /\
  (NotIn x elems tt = Ret None <-> In x elems tt <> Ret None) /\
  In x [] tt <> Ret None /\
  NotIn x [] tt = Ret None.
Proof.
  unfold In, NotIn. rewrite !Ret_inj, In_loop_None, NotIn_loop_None.
  split; [reflexivity|]. split; [|split; [discriminate | reflexivity]].
  rewrite Forall_Exists_neg. reflexivity.
Qed.

(** ** Further properties of the emptiness primitive *)

Lemma forallb_repeat {A : Type} (f : A -> bool) (a : A) (n : nat) :
  f a = true -> List.forallb f (List.repeat a n) = true.
Proof. intros H. induction n as [|n IH]; simpl; [reflexivity | now rewrite H]. Qed.

Lemma self_equal_Zero (t : gotype) : self_equal (Zero t) = true.
Proof.
  induction t as [n fs IH | n e IH | e IH | k e IHk IHe | e IH | e IH | t Ht]
    using gotype_nested_ind; cbn [Zero self_equal]; try reflexivity.
  - rewrite forallb_forall. intros v Hv. apply in_map_iff in Hv as (u & <- & Hu).
    rewrite Forall_forall in IH. now apply IH.
  - now apply forallb_repeat.
  - destruct t; try contradiction; reflexivity.
Qed.

Lemma TypeOf_Zero (t : gotype) :
  t <> TInterface -> TypeOf (Zero t) = Some t.
Proof.
  destruct t; cbn [Zero TypeOf]; try reflexivity; [congruence|].
  intros _. now rewrite repeat_length.
Qed.

(** The zero value of a type is empty, with two exceptions: the zero
    value of an array type is empty only when the array has length 0,
    and on the zero value of a pointer type, a nil pointer, the
    evaluation panics. *)
Theorem isEmpty_Zero (t : gotype) :
  isEmpty (Zero t) =
  match t with
  | TPtr _ => Panic panic_Interface
  | TArray n _ => Ret (Z.of_nat n =? 0)
  | _ => Ret true
  end.
Proof.
  destruct t; try reflexivity;
    try (cbn [Zero isEmpty TypeOf]; f_equal; rewrite DeepEqual_diag;
         first [reflexivity | apply (self_equal_Zero (TStruct _ _))]).
  cbn [Zero isEmpty Value_Len]. now rewrite repeat_length.
Qed.

(** On a number, a boolean or a string, [isEmpty] tells the zero value:
    the integer 0, a float equal to zero of either sign, false, the
    empty string; NaN is not empty. *)
Theorem isEmpty_scalar :
  (forall k n, isEmpty (VInt k n) = Ret (n =? 0)) /\
  (forall k n, isEmpty (VUint k n) = Ret (n =? 0)) /\
  (forall k f, isEmpty (VFloat k f) = Ret (SFeqb f (S754_zero false))) /\
  (forall k s, isEmpty (VFloat k (S754_zero s)) = Ret true) /\
  (forall k, isEmpty (VFloat k S754_nan) = Ret false) /\
  (forall b, isEmpty (VBool b) = Ret (negb b)) /\
  (forall s, isEmpty (VString s) = Ret (String.eqb s "")).
Proof.
  split; [intros k n; cbn; now rewrite intKind_eqb_refl|].
  split; [intros k n; cbn; now rewrite uintKind_eqb_refl|].
  split; [intros k f; cbn; now rewrite floatKind_eqb_refl|].
  split; [intros k s; cbn; rewrite floatKind_eqb_refl; now destruct s|].
  split; [intros k; cbn; now rewrite floatKind_eqb_refl|].
  split; [intros b; now destruct b | intros s; now destruct s].
Qed.

Lemma compare_signed_eq_term (k : intKind) (n : Z) (c : value) :
  compare (VInt k n) (Some (mkCmpField eq c)) = None <->
  exists k', c = VInt k' n.
Proof.
  rewrite compare_signed by exact valid_eq. unfold compareInt64. cbn [term op].
  split.
  - destruct (toInt64 c) as [m|e] eqn:E; [|discriminate].
    apply toInt64_Ok in E as [k' ->]. rewrite cmpResult_None, switch_op_eq.
    rewrite Z.eqb_eq. intros ->. now exists k'.
  - intros [k' ->]. rewrite toInt64_signed, cmpResult_None, switch_op_eq.
    apply Z.eqb_refl.
Qed.

(** For a signed integer x, [In] succeeds exactly when some candidate is
    a signed integer, of any width, with the number of x; candidates of
    other kinds never match and never make it fail. *)
Theorem In_signed_integer (k : intKind) (n : Z) (elems : list value) :
  In (VInt k n) elems tt = Ret None <->
  exists k', List.In (VInt k' n) elems.
Proof.
  unfold In. rewrite Ret_inj, In_loop_None, Exists_exists. split.
  - intros (c & Hc & H). apply compare_signed_eq_term in H as [k' ->].
    now exists k'.
  - intros [k' H]. exists (VInt k' n). split; [exact H|].
    apply compare_signed_eq_term. now exists k'.
Qed.

Lemma intKind_eqb_eq (a b : intKind) : intKind_eqb a b = true -> a = b.
Proof. destruct a, b; (reflexivity || discriminate). Qed.

Lemma uintKind_eqb_eq (a b : uintKind) : uintKind_eqb a b = true -> a = b.
Proof. destruct a, b; (reflexivity || discriminate). Qed.

Lemma floatKind_eqb_eq (a b : floatKind) : floatKind_eqb a b = true -> a = b.
Proof. destruct a, b; (reflexivity || discriminate). Qed.

Lemma gotype_eqb_eq (t u : gotype) : gotype_eqb t u = true -> t = u.
Proof.
  revert u.
  induction t as [n fs IH | n e IH | e IH | k e IHk IHe | e IH | e IH | t Ht]
    using gotype_nested_ind; intros u.
  - destruct u; try discriminate. cbn [gotype_eqb].
    rewrite andb_true_iff, String.eqb_eq. intros [-> H]. f_equal.
    revert fields H. induction IH as [|a l Ha _ IHl]; intros [|b r];
      cbn [forall2b]; try discriminate; [reflexivity|].
    rewrite andb_true_iff. intros [H1 H2].
    f_equal; [now apply Ha | now apply IHl].
  - destruct u; try discriminate. cbn [gotype_eqb].
    rewrite andb_true_iff, Nat.eqb_eq. intros [-> H]. f_equal. now apply IH.
  - destruct u; try discriminate. cbn [gotype_eqb].
    intros H. f_equal. now apply IH.
  - destruct u; try discriminate. cbn [gotype_eqb].
    rewrite andb_true_iff. intros [H1 H2].
    f_equal; [now apply IHk | now apply IHe].
  - destruct u; try discriminate. cbn [gotype_eqb].
    intros H. f_equal. now apply IH.
  - destruct u; try discriminate. cbn [gotype_eqb].
    intros H. f_equal. now apply IH.
  - destruct t; try contradiction; destruct u; try discriminate;
      cbn [gotype_eqb]; intros H; f_equal;
      auto using intKind_eqb_eq, uintKind_eqb_eq, floatKind_eqb_eq.
    now apply String.eqb_eq.
Qed.

Lemma DeepEqual_TypeOf (x y : value) :
  DeepEqual x y = true -> TypeOf x = TypeOf y.
Proof.
  assert (E : forall a b,
             option_eqb gotype_eqb (TypeOf a) (TypeOf b) && deepValueEqual a b
             = true -> TypeOf a = TypeOf b).
  { intros a b. rewrite andb_true_iff. intros [H _].
    destruct (TypeOf a) as [t|], (TypeOf b) as [u|]; try discriminate;
      [|reflexivity].
    f_equal. now apply gotype_eqb_eq. }
  destruct x, y; cbn [DeepEqual]; try discriminate; try reflexivity; apply E.
Qed.

(** Structural operands of different dynamic types are never equal,
    whatever they hold: eq fails with the comparison error and ne
    succeeds. *)
Theorem compare_opaque_types_differ (x t : value) :
  category x = Opaque -> TypeOf x <> TypeOf t ->
  compare x (Some (mkCmpField eq t))
  = Some (fmt_Errorf "`%s` comparison failed: `%v` is not equal to `%v`"
            [AStr "eq"; AVal x; AVal t]) /\
  compare x (Some (mkCmpField ne t)) = None.
Proof.
  intros Hx Ht.
  assert (E : DeepEqual x t = false).
  { destruct (DeepEqual x t) eqn:E; [|reflexivity].
    exfalso. apply Ht. now apply DeepEqual_TypeOf. }
  rewrite !compare_opaque by (exact valid_eq || exact valid_ne || exact Hx).
  rewrite compareInterface_eq, compareInterface_ne, E.
  split; reflexivity.
Qed.

(** An [[]int] against an [[]int64] with the same element. *)
Lemma compare_opaque_types_differ_witness :
  compare (VSlice (TInt I0) (Some (1, [VInt I0 3])))
          (Some (mkCmpField ne (VSlice (TInt I64) (Some (2, [VInt I64 3])))))
  = None.
Proof.
  apply (proj2 (compare_opaque_types_differ
           (VSlice (TInt I0) (Some (1, [VInt I0 3])))
           (VSlice (TInt I64) (Some (2, [VInt I64 3])))
           eq_refl ltac:(discriminate))).
Defined.

(** ** Further properties of the string helpers *)

Lemma IsSpace_RuneError : IsSpace RuneError = false.
Proof. reflexivity. Qed.

(** A rune that is a white space was decoded from the bytes it spans, so
    bytes that follow do not change it. *)
Lemma DecodeRune_app (p q : list Z) (r : Z) (w : nat) :
  DecodeRune p = (r, w) -> IsSpace r = true -> DecodeRune (p ++ q) = (r, w).
Proof.
  assert (N : forall n (G : Prop),
             (RuneError, n) = (r, w) -> IsSpace r = true -> G).
  { intros n G H Hs. injection H as <- _. rewrite IsSpace_RuneError in Hs.
    discriminate Hs. }
  unfold DecodeRune at 1. destruct p as [|s0 p]; [apply N|].
  cbn [app]. unfold DecodeRune.
  destruct (s0 <? RuneSelf); [intros H _; exact H|].
  destruct ((s0 <? 0xC2) || (0xF4 <? s0)); [intros H _; exact H|].
  cbv zeta. destruct (s0 <? 0xE0); [|destruct (s0 <? 0xF0)].
  - destruct p as [|s1 p]; [apply N | intros H _; exact H].
  - destruct p as [|s1 [|s2 p]]; [apply N | apply N | intros H _; exact H].
  - destruct p as [|s1 [|s2 [|s3 p]]];
      [apply N | apply N | apply N | intros H _; exact H].
Qed.

(** The width of a decoded rune: at least one byte of a non-empty
    sequence, and never more than the sequence holds. *)
Lemma DecodeRune_width (s : list Z) (r : Z) (w : nat) :
  DecodeRune s = (r, w) -> s <> [] -> (1 <= w <= List.length s)%nat.
Proof.
  unfold DecodeRune. destruct s as [|s0 p]; [congruence|]. intros H _.
  revert H. cbv zeta.
  repeat match goal with
         | |- context [match ?l with [] => _ | _ :: _ => _ end] =>
             is_var l; destruct l
         | |- context [if ?c then _ else _] => destruct c
         end;
    intros H; injection H as _ <-; cbn [List.length]; lia.
Qed.

Lemma DecodeRune_space_width (s : list Z) (r : Z) (w : nat) :
  DecodeRune s = (r, w) -> IsSpace r = true -> (1 <= w <= List.length s)%nat.
Proof.
  intros H Hs. destruct s as [|s0 p].
  - injection H as <- _. rewrite IsSpace_RuneError in Hs. discriminate Hs.
  - apply (DecodeRune_width _ _ _ H). discriminate.
Qed.

Lemma indexFunc_fuel_none (fuel : nat) (b : list Z) (i : Z) :
  0 <= i -> indexFunc_fuel fuel IsSpace false b i = -1 ->
  List.forallb IsSpace (runes_fuel fuel b) = true.
Proof.
  revert b i. induction fuel as [|fuel IH]; intros b i Hi; [reflexivity|].
  destruct b as [|z b]; [reflexivity|].
  cbn [runes_fuel indexFunc_fuel].
  destruct (DecodeRune (z :: b)) as [r w].
  cbn [List.forallb]. destruct (IsSpace r); cbn [Bool.eqb andb].
  - apply IH. lia.
  - lia.
Qed.

(** When the scan stops, it stops in front of a rune that is no space. *)
Lemma indexFunc_fuel_found (fuel : nat) (b : list Z) (i j : Z) :
  indexFunc_fuel fuel IsSpace false b i = j -> j <> -1 ->
  exists n, j = i + Z.of_nat n /\ List.skipn n b <> [] /\
            IsSpace (fst (DecodeRune (List.skipn n b))) = false.
Proof.
  revert b i. induction fuel as [|fuel IH]; intros b i; [cbn; congruence|].
  destruct b as [|z b]; [cbn; congruence|].
  cbn [indexFunc_fuel].
  destruct (DecodeRune (z :: b)) as [r w] eqn:E.
  destruct (IsSpace r) eqn:Hr; cbn [Bool.eqb].
  - intros H Hj. destruct (IH _ _ H Hj) as (n & Hn & Hne & Hsp).
    exists (n + w)%nat. rewrite <- skipn_skipn. repeat split; [lia | |]; assumption.
  - intros <- _. exists 0%nat. cbn [List.skipn]. rewrite E.
    repeat split; [lia | discriminate | exact Hr].
Qed.

Lemma skipn_last (l : list Z) :
  l <> [] ->
  List.skipn (List.length l - 1) l = [List.nth (List.length l - 1) l 0].
Proof.
  induction l as [|a l IH]; [congruence|]. intros _.
  destruct l as [|b l]; [reflexivity|].
  cbn [List.length] in *. replace (S (S (List.length l)) - 1)%nat
    with (S (S (List.length l) - 1)) by lia.
  cbn [List.skipn List.nth]. apply IH. discriminate.
Qed.

Lemma scanStart_le (fuel : nat) (s : list Z) (lim start : Z) :
  scanStart fuel s lim start <= start.
Proof.
  revert start. induction fuel as [|fuel IH]; intros start; cbn [scanStart];
    [lia|].
  destruct (start <? lim); [lia|].
  destruct (RuneStart _); [lia|]. specialize (IH (start - 1)). lia.
Qed.

(** The last rune of a non-empty sequence spans at least one byte and at
    most the sequence; when it is a white space it is the rune decoded
    from the bytes it spans. *)
Lemma DecodeLastRune_spec (l : list Z) (r : Z) (size : nat) :
  l <> [] -> DecodeLastRune l = (r, size) ->
  (1 <= size <= List.length l)%nat /\
  (IsSpace r = true ->
   DecodeRune (List.skipn (List.length l - size) l) = (r, size)).
Proof.
  intros Hl. unfold DecodeLastRune.
  assert (Hlen : (0 < List.length l)%nat)
    by (destruct l; [congruence | cbn; lia]).
  destruct (Z.eqb_spec (Z.of_nat (List.length l)) 0) as [E|_]; [lia|].
  replace (Z.to_nat (Z.of_nat (List.length l) - 1))
    with (List.length l - 1)%nat by lia.
  destruct (List.nth (List.length l - 1) l 0 <? RuneSelf) eqn:Hr.
  - intros H. injection H as <- <-. split; [lia|]. intros _.
    rewrite (skipn_last l Hl). unfold DecodeRune. now rewrite Hr.
  - pose proof (scanStart_le 4 l (Z.max 0 (Z.of_nat (List.length l) - UTFMax))
                  (Z.of_nat (List.length l) - 2)) as Hscan.
    set (start := Z.max 0 _).
    assert (Hs : 0 <= start <= Z.of_nat (List.length l) - 1)
      by (unfold start; lia).
    destruct (DecodeRune (List.skipn (Z.to_nat start) l)) as [r' size'] eqn:E.
    destruct (Z.eqb_spec (start + Z.of_nat size') (Z.of_nat (List.length l)))
      as [Hend|_].
    + intros H. injection H as <- <-. split; [lia|]. intros Hsp.
      replace (List.length l - size')%nat with (Z.to_nat start) by lia.
      exact E.
    + intros H. injection H as <- <-. split; [lia|].
      rewrite IsSpace_RuneError. discriminate.
Qed.

Lemma lastIndexFunc_fuel_none (L : list Z) (fuel : nat) (i : Z) :
  0 < i <= Z.of_nat (List.length L) -> (Z.to_nat i < fuel)%nat ->
  lastIndexFunc_fuel fuel IsSpace false L i = -1 ->
  IsSpace (fst (DecodeRune (List.firstn (Z.to_nat i) L))) = true.
Proof.
  revert i. induction fuel as [|fuel IH]; intros i Hi Hf; [lia|].
  cbn [lastIndexFunc_fuel].
  destruct (Z.gtb_spec i 0) as [_|Hn]; [|lia].
  set (P := List.firstn (Z.to_nat i) L).
  assert (HP : List.length P = Z.to_nat i)
    by (unfold P; rewrite length_firstn; lia).
  assert (HPne : P <> []) by (intros E; rewrite E in HP; cbn in HP; lia).
  destruct (DecodeLastRune P) as [r size] eqn:E.
  destruct (DecodeLastRune_spec P r size HPne E) as [Hsize Hspace].
  destruct (IsSpace r) eqn:Hr; cbn [Bool.eqb]; [|lia].
  specialize (Hspace eq_refl). intros Hrec.
  destruct (Z.eq_dec (i - Z.of_nat size) 0) as [Hz|Hz].
  - replace (List.length P - size)%nat with 0%nat in Hspace by lia.
    cbn [List.skipn] in Hspace. now rewrite Hspace.
  - assert (Hi' : 0 < i - Z.of_nat size <= Z.of_nat (List.length L)) by lia.
    specialize (IH _ Hi' ltac:(lia) Hrec).
    set (i' := Z.to_nat (i - Z.of_nat size)) in *.
    assert (HPi : P = (List.firstn i' L ++ List.skipn i' P)%list).
    { rewrite <- (firstn_skipn i' P) at 1. f_equal. unfold P.
      rewrite firstn_firstn. f_equal. lia. }
    rewrite HPi.
    destruct (DecodeRune (List.firstn i' L)) as [r0 w0] eqn:E0.
    cbn [fst] in IH. now rewrite (DecodeRune_app _ _ _ _ E0 IH).
Qed.

(** The backward scan answers -1 or an offset inside the sequence. *)
Lemma lastIndexFunc_fuel_range (L : list Z) (fuel : nat) (i : Z) :
  i <= Z.of_nat (List.length L) ->
  -1 <= lastIndexFunc_fuel fuel IsSpace false L i < Z.max i 0.
Proof.
  revert i. induction fuel as [|fuel IH]; intros i Hi; cbn [lastIndexFunc_fuel];
    [lia|].
  destruct (Z.gtb_spec i 0) as [Hp|Hn]; [|lia].
  set (P := List.firstn (Z.to_nat i) L).
  assert (HP : List.length P = Z.to_nat i)
    by (unfold P; rewrite length_firstn; lia).
  assert (HPne : P <> []) by (intros E; rewrite E in HP; cbn in HP; lia).
  destruct (DecodeLastRune P) as [r size] eqn:E.
  destruct (DecodeLastRune_spec P r size HPne E) as [Hsize _].
  destruct (IsSpace r) eqn:Hr; cbn [Bool.eqb].
  - specialize (IH (i - Z.of_nat size) ltac:(lia)). lia.
  - lia.
Qed.

Lemma string_of_bytes_nil (l : list Z) : string_of_bytes l = "" -> l = [].
Proof. destruct l; [reflexivity | discriminate]. Qed.

(** Trimming on the right keeps a sequence that starts with a rune that
    is no space from becoming empty. *)
Lemma TrimRightFunc_nonempty (L : list Z) :
  L <> [] -> IsSpace (fst (DecodeRune L)) = false ->
  TrimRightFunc L IsSpace <> [].
Proof.
  intros HL Hfirst. unfold TrimRightFunc, lastIndexFunc.
  assert (Hlen : (0 < List.length L)%nat)
    by (destruct L; [congruence | cbn; lia]).
  pose proof (lastIndexFunc_fuel_range L (S (List.length L))
                (Z.of_nat (List.length L)) ltac:(lia)) as Hrange.
  set (j := lastIndexFunc_fuel _ _ _ _ _) in *.
  destruct (Z.eq_dec j (-1)) as [Hj|Hj].
  - exfalso.
    pose proof (lastIndexFunc_fuel_none L (S (List.length L))
                  (Z.of_nat (List.length L)) ltac:(lia) ltac:(lia) Hj) as H.
    rewrite Nat2Z.id, firstn_all in H. congruence.
  - match goal with
    | |- List.firstn (Z.to_nat ?e) _ <> [] => set (i := e)
    end.
    assert (Hi : 1 <= i).
    { unfold i. destruct ((j >=? 0) && _); [|lia].
      assert (Hj0 : 0 <= j) by lia.
      destruct (DecodeRune (List.skipn (Z.to_nat j) L)) as [r w] eqn:E.
      cbn [snd].
      assert (Hne : List.skipn (Z.to_nat j) L <> []).
      { intros Hs. apply (f_equal (@List.length Z)) in Hs.
        rewrite length_skipn in Hs. cbn [List.length] in Hs.
        lia. }
      pose proof (DecodeRune_width _ _ _ E Hne). lia. }
    destruct L as [|z L]; [congruence|].
    destruct (Z.to_nat i) eqn:En; [lia | discriminate].
Qed.

Lemma isEmptyStr_only_spaces (s : string) :
  isEmptyStr s = true -> all_space s.
Proof.
  unfold isEmptyStr, TrimSpace. rewrite String.eqb_eq. intros H.
  apply string_of_bytes_nil in H. revert H.
  unfold all_space, runes, TrimLeftFunc, indexFunc.
  set (b := bytes_of_string s).
  destruct (Z.eqb_spec (indexFunc_fuel (List.length b) IsSpace false b 0) (-1))
    as [E|E].
  - intros _. apply (indexFunc_fuel_none _ _ 0); [lia | exact E].
  - intros H. exfalso.
    destruct (indexFunc_fuel_found _ _ _ _ eq_refl E) as (n & Hn & Hne & Hsp).
    rewrite Hn in H. replace (Z.to_nat (0 + Z.of_nat n)) with n in H by lia.
    exact (TrimRightFunc_nonempty _ Hne Hsp H).
Qed.

(** [isEmptyStr] holds exactly of the strings made of white space only,
    the empty string among them: a string with one rune that is no
    white space, an invalid byte included, is not empty. *)
Theorem isEmptyStr_iff_all_space (s : string) :
  isEmptyStr s = true <-> all_space s.
Proof.
  split.
  - apply isEmptyStr_only_spaces.
  - apply isEmptyStr_all_space.
Qed.

(** ** UTF-8: decoding what was encoded *)

Lemma lor_add_low (hi lo k : Z) :
  0 <= k -> 0 <= lo < 2 ^ k -> hi mod 2 ^ k = 0 -> Z.lor hi lo = hi + lo.
Proof.
  intros Hk Hlo Hhi.
  assert (E : Z.land hi lo = 0).
  { apply Z.bits_inj'. intros n Hn. rewrite Z.land_spec, Z.bits_0.
    destruct (Z.lt_ge_cases n k) as [Hlt|Hge].
    - rewrite <- (Z.mod_pow2_bits_low hi k n) by lia. rewrite Hhi.
      now rewrite Z.bits_0.
    - rewrite <- (Z.mod_small lo (2 ^ k)) by lia.
      rewrite Z.mod_pow2_bits_high by lia. apply andb_false_r. }
  rewrite <- Z.lxor_lor by exact E. symmetry. now apply Z.add_nocarry_lxor.
Qed.

Lemma land_3F (a : Z) : Z.land a 0x3F = a mod 64.
Proof. change 0x3F with (Z.ones 6). now rewrite Z.land_ones by lia. Qed.
Lemma land_1F (a : Z) : Z.land a 0x1F = a mod 32.
Proof. change 0x1F with (Z.ones 5). now rewrite Z.land_ones by lia. Qed.
Lemma land_0F (a : Z) : Z.land a 0x0F = a mod 16.
Proof. change 0x0F with (Z.ones 4). now rewrite Z.land_ones by lia. Qed.
Lemma land_07 (a : Z) : Z.land a 0x07 = a mod 8.
Proof. change 0x07 with (Z.ones 3). now rewrite Z.land_ones by lia. Qed.
Lemma shiftl_6 (a : Z) : Z.shiftl a 6 = a * 64.
Proof. now rewrite Z.shiftl_mul_pow2 by lia. Qed.
Lemma shiftl_12 (a : Z) : Z.shiftl a 12 = a * 4096.
Proof. now rewrite Z.shiftl_mul_pow2 by lia. Qed.
Lemma shiftl_18 (a : Z) : Z.shiftl a 18 = a * 262144.
Proof. now rewrite Z.shiftl_mul_pow2 by lia. Qed.
Lemma shiftr_6 (a : Z) : Z.shiftr a 6 = a / 64.
Proof. now rewrite Z.shiftr_div_pow2 by lia. Qed.
Lemma shiftr_12 (a : Z) : Z.shiftr a 12 = a / 4096.
Proof. now rewrite Z.shiftr_div_pow2 by lia. Qed.
Lemma shiftr_18 (a : Z) : Z.shiftr a 18 = a / 262144.
Proof. now rewrite Z.shiftr_div_pow2 by lia. Qed.


Ltac euclid := Z.to_euclidean_division_equations; lia.



Ltac to_arith :=
  rewrite ?land_3F, ?land_1F, ?land_0F, ?land_07, ?shiftl_6, ?shiftl_12,
    ?shiftl_18, ?shiftr_6, ?shiftr_12, ?shiftr_18.

Ltac solve_cond :=
  repeat (match goal with
          | |- context [?a =? ?b] => destruct (Z.eqb_spec a b)
          | |- context [?a <? ?b] => destruct (Z.ltb_spec a b)
          | |- context [?a <=? ?b] => destruct (Z.leb_spec a b)
          end; try (exfalso; euclid); cbv beta iota).

Lemma EncodeRune_DecodeRune (r : Z) (rest : list Z) :
  valid_rune r ->
  DecodeRune (EncodeRune r ++ rest) = (r, List.length (EncodeRune r)).
Proof.
  unfold valid_rune. intros [Hr Hs].
  assert (E : (r <? 0) || (0x10FFFF <? r) || ((0xD800 <=? r) && (r <=? 0xDFFF))
              = false).
  { destruct (Z.ltb_spec r 0), (Z.ltb_spec 0x10FFFF r), (Z.leb_spec 0xD800 r),
      (Z.leb_spec r 0xDFFF); cbn; try reflexivity; lia. }
  unfold EncodeRune, RuneError. cbv zeta. rewrite E.
  destruct (Z.leb_spec r 0x7F) as [H1|H1];
    [|destruct (Z.leb_spec r 0x7FF) as [H2|H2];
      [|destruct (Z.leb_spec r 0xFFFF) as [H3|H3]]].
  - solve_cond; cbn [andb app List.length]; unfold DecodeRune, RuneSelf;
      solve_cond; reflexivity.
  - solve_cond; cbn [andb app List.length]; to_arith;
      rewrite (lor_add_low 0xC0 _ 5), (lor_add_low 0x80 _ 6) by euclid;
      unfold DecodeRune, RuneSelf, cont; to_arith;
      solve_cond; cbn [andb orb];
      rewrite (lor_add_low _ _ 6) by euclid; f_equal; euclid.
  - solve_cond; cbn [andb orb app List.length]; solve_cond; to_arith;
      rewrite (lor_add_low 0xE0 _ 4), !(lor_add_low 0x80 _ 6) by euclid;
      unfold DecodeRune, RuneSelf, cont; to_arith;
      solve_cond; cbn [andb orb];
      rewrite (lor_add_low _ (_ * 64) 12) by euclid;
      rewrite (lor_add_low _ _ 6) by euclid; f_equal; euclid.
  - solve_cond; cbn [andb orb app List.length]; solve_cond; to_arith;
      rewrite (lor_add_low 0xF0 _ 3), !(lor_add_low 0x80 _ 6) by euclid;
      unfold DecodeRune, RuneSelf, cont; to_arith;
      solve_cond; cbn [andb orb];
      rewrite (lor_add_low _ (_ * 4096) 18) by euclid;
      rewrite (lor_add_low _ (_ * 64) 12) by euclid;
      rewrite (lor_add_low _ _ 6) by euclid; f_equal; euclid.
Qed.


Lemma EncodeRune_bytes (r : Z) :
  valid_rune r -> Forall is_byte (EncodeRune r) /\ EncodeRune r <> [].
Proof.
  unfold valid_rune, is_byte. intros [Hr Hs].
  assert (E : (r <? 0) || (0x10FFFF <? r) || ((0xD800 <=? r) && (r <=? 0xDFFF))
              = false).
  { destruct (Z.ltb_spec r 0), (Z.ltb_spec 0x10FFFF r), (Z.leb_spec 0xD800 r),
      (Z.leb_spec r 0xDFFF); cbn; try reflexivity; lia. }
  unfold EncodeRune, RuneError. cbv zeta. rewrite E.
  destruct (Z.leb_spec r 0x7F) as [H1|H1];
    [|destruct (Z.leb_spec r 0x7FF) as [H2|H2];
      [|destruct (Z.leb_spec r 0xFFFF) as [H3|H3]]];
    solve_cond; cbn [andb orb]; solve_cond; (split; [|discriminate]);
    to_arith;
    rewrite ?(lor_add_low 0xC0 _ 5), ?(lor_add_low 0xE0 _ 4),
      ?(lor_add_low 0xF0 _ 3), ?(lor_add_low 0x80 _ 6) by euclid;
    repeat constructor; euclid.
Qed.

Lemma DecodeRune_valid (s : list Z) (r : Z) (w : nat) :
  Forall is_byte s -> DecodeRune s = (r, w) -> valid_rune r.
Proof.
  unfold is_byte. intros HB.
  assert (F : forall v n, (v, n) = (r, w) -> valid_rune v -> valid_rune r)
    by (intros v n H; now injection H as <- _).
  assert (VE : valid_rune RuneError) by (unfold valid_rune, RuneError; lia).
  unfold DecodeRune, RuneSelf, cont.
  destruct s as [|s0 [|s1 [|s2 [|s3 p]]]];
    repeat (apply Forall_cons_iff in HB as [? HB]); cbv zeta;
    solve_cond; cbn [andb orb]; intros Hdec; apply (F _ _ Hdec); try exact VE;
    unfold valid_rune; to_arith;
    rewrite ?(lor_add_low _ (_ * 4096) 18) by euclid;
    rewrite ?(lor_add_low _ (_ * 64) 12) by euclid;
    rewrite ?(lor_add_low _ _ 6) by euclid; euclid.
Qed.

Lemma byte_of_is_byte (c : ascii) : is_byte (byte_of c).
Proof.
  unfold is_byte, byte_of. pose proof (N_ascii_bounded c). lia.
Qed.

Lemma bytes_of_string_is_byte (s : string) : Forall is_byte (bytes_of_string s).
Proof.
  unfold bytes_of_string. apply Forall_forall. intros z Hz.
  apply in_map_iff in Hz as (c & <- & _). apply byte_of_is_byte.
Qed.

Lemma byte_of_ascii_of (z : Z) : is_byte z -> byte_of (ascii_of z) = z.
Proof.
  unfold is_byte, byte_of, ascii_of. intros H.
  rewrite N_ascii_embedding by lia. lia.
Qed.

Lemma bytes_of_string_of_bytes (l : list Z) :
  Forall is_byte l -> bytes_of_string (string_of_bytes l) = l.
Proof.
  unfold bytes_of_string, string_of_bytes. intros H.
  rewrite list_ascii_of_string_of_list_ascii, map_map.
  induction H as [|z l Hz _ IH]; cbn [List.map]; [reflexivity|].
  now rewrite byte_of_ascii_of, IH.
Qed.

Lemma Forall_skipn {A : Type} (P : A -> Prop) (n : nat) (l : list A) :
  Forall P l -> Forall P (List.skipn n l).
Proof.
  revert l. induction n as [|n IH]; intros l H; [exact H|].
  destruct l as [|a l]; [constructor|]. cbn [List.skipn]. apply IH.
  now inversion H.
Qed.

Lemma runes_fuel_valid (fuel : nat) (b : list Z) :
  Forall is_byte b -> Forall valid_rune (runes_fuel fuel b).
Proof.
  revert b. induction fuel as [|fuel IH]; intros b Hb; [constructor|].
  destruct b as [|z b]; [constructor|]. cbn [runes_fuel].
  destruct (DecodeRune (z :: b)) as [r w] eqn:E. constructor.
  - exact (DecodeRune_valid _ _ _ Hb E).
  - apply IH. now apply Forall_skipn.
Qed.

(** Decoding the encodings of valid runes gives the runes back. *)
Lemma runes_fuel_encode (rs : list Z) (fuel : nat) :
  Forall valid_rune rs ->
  (List.length (List.concat (List.map EncodeRune rs)) <= fuel)%nat ->
  runes_fuel fuel (List.concat (List.map EncodeRune rs)) = rs.
Proof.
  intros H. revert fuel. induction H as [|r rs Hr _ IH]; intros fuel Hf.
  - cbn. now destruct fuel.
  - cbn [List.map List.concat] in *.
    destruct (EncodeRune_bytes r Hr) as [_ Hne].
    pose proof (EncodeRune_DecodeRune r
                  (List.concat (List.map EncodeRune rs)) Hr) as Hd.
    rewrite length_app in Hf.
    destruct (EncodeRune r) as [|z e] eqn:Ee; [congruence|].
    destruct fuel as [|fuel]; [cbn in Hf; lia|].
    cbn [app] in *. cbn [runes_fuel]. rewrite Hd. f_equal.
    change (z :: (e ++ List.concat (List.map EncodeRune rs))%list)
      with ((z :: e) ++ List.concat (List.map EncodeRune rs))%list.
    rewrite skipn_app, skipn_all, Nat.sub_diag. cbn [List.skipn app].
    apply IH. cbn [List.length] in Hf. lia.
Qed.

Lemma concat_encode_bytes (rs : list Z) :
  Forall valid_rune rs ->
  Forall is_byte (List.concat (List.map EncodeRune rs)).
Proof.
  induction 1 as [|r rs Hr _ IH]; cbn [List.map List.concat]; [constructor|].
  apply Forall_app. split; [apply (EncodeRune_bytes r Hr) | exact IH].
Qed.

Lemma strip_map_filter (rs : list Z) :
  Forall valid_rune rs ->
  List.concat
    (List.map (fun c => let r := if IsSpace c then -1 else c in
                        if r >=? 0 then EncodeRune r else []) rs)
  = List.concat
      (List.map EncodeRune (List.filter (fun r => negb (IsSpace r)) rs)).
Proof.
  set (g := fun c : Z => let r := if IsSpace c then -1 else c in
                         if r >=? 0 then EncodeRune r else []).
  induction 1 as [|r rs Hr _ IH]; [reflexivity|].
  cbn [List.map List.concat List.filter]. rewrite IH. unfold g. cbv zeta.
  destruct (IsSpace r); cbn [negb]; [reflexivity|].
  destruct (Z.geb_spec r 0) as [_|Hn]; [reflexivity|].
  unfold valid_rune in Hr. lia.
Qed.

Lemma stripSpaces_bytes (s : string) :
  stripSpaces s
  = string_of_bytes
      (List.concat
         (List.map EncodeRune
            (List.filter (fun r => negb (IsSpace r)) (runes s)))).
Proof.
  unfold stripSpaces, strings_Map. f_equal.
  apply strip_map_filter, runes_fuel_valid, bytes_of_string_is_byte.
Qed.

Lemma runes_string_of_encoded (rs : list Z) :
  Forall valid_rune rs ->
  runes (string_of_bytes (List.concat (List.map EncodeRune rs))) = rs.
Proof.
  intros H. unfold runes.
  rewrite (bytes_of_string_of_bytes _ (concat_encode_bytes _ H)).
  now apply runes_fuel_encode.
Qed.

Lemma filter_valid_rune (f : Z -> bool) (s : string) :
  Forall valid_rune (List.filter f (runes s)).
Proof.
  apply Forall_forall. intros r Hr. apply filter_In in Hr as [Hr _].
  pose proof (runes_fuel_valid (List.length (bytes_of_string s))
                (bytes_of_string s) (bytes_of_string_is_byte s)) as Hv.
  rewrite Forall_forall in Hv. now apply Hv.
Qed.

Lemma forallb_filter_negb (f : Z -> bool) (l : list Z) :
  List.forallb f (List.filter (fun r => negb (f r)) l) = List.forallb f l.
Proof.
  induction l as [|a l IH]; [reflexivity|]. cbn [List.filter List.forallb].
  destruct (f a) eqn:E; cbn [negb andb]; [exact IH|].
  cbn [List.forallb]. now rewrite E.
Qed.

Lemma isEmptyStr_stripSpaces (s : string) :
  isEmptyStr (stripSpaces s) = isEmptyStr s.
Proof.
  apply eq_true_iff_eq. split; intros H.
  - apply isEmptyStr_all_space. apply isEmptyStr_only_spaces in H.
    unfold all_space in *.
    rewrite stripSpaces_bytes, runes_string_of_encoded in H
      by apply filter_valid_rune.
    now rewrite forallb_filter_negb in H.
  - apply isEmptyStr_all_space. apply isEmptyStr_only_spaces in H.
    unfold all_space in *.
    rewrite stripSpaces_bytes, runes_string_of_encoded
      by apply filter_valid_rune.
    now rewrite forallb_filter_negb.
Qed.

(** [stripSpaces] drops the white-space runes of a string and keeps the
    other runes, in order, an invalid byte as U+FFFD; so a string is
    empty for the format checks after stripping exactly when it was
    before, which is the test [EmailList] makes. *)
Theorem stripSpaces_runes (s : string) :
  runes (stripSpaces s)
  = List.filter (fun r => negb (IsSpace r)) (runes s) /\
  isEmptyStr (stripSpaces s) = isEmptyStr s.
Proof.
  split.
  - rewrite stripSpaces_bytes. apply runes_string_of_encoded.
    apply filter_valid_rune.
  - apply isEmptyStr_stripSpaces.
Qed.

Lemma EmailList_loop_find (parse : string -> bool) (emails : list string) :
  EmailList_loop parse emails =
  match List.find (fun e => negb (parse e)) emails with
  | Some seg => Some (fmt_Errorf "invalid email address `%s`" [AStr seg])
  | None => None
  end.
Proof.
  induction emails as [|e l IH]; [reflexivity|].
  cbn [EmailList_loop List.find]. now destruct (parse e).
Qed.

(** On a list that is not empty, [EmailList] splits the list, stripped
    of its white space, at the commas and returns the error of the first
    segment that the address parser rejects, or nil when it accepts them
    all; [required] plays no part. *)
Theorem EmailList_first_invalid (parse : string -> bool) (list : string)
    (required : bool) :
  isEmptyStr list = false ->
  EmailList parse list required tt =
  Ret match List.find (fun e => negb (parse e))
              (split_comma "" (stripSpaces list)) with
      | Some seg => Some (fmt_Errorf "invalid email address `%s`" [AStr seg])
      | None => None
      end.
Proof.
  intros H. unfold EmailList. cbv zeta.
  rewrite isEmptyStr_stripSpaces, H. now rewrite EmailList_loop_find.
Qed.

(** The documented list with two trailing commas, against a parser that
    rejects the empty address. *)
Lemma EmailList_first_invalid_witness :
  EmailList (fun e => negb (String.eqb e "")) "Bob <bob@example.com>,," true tt
  = Ret (Some (fmt_Errorf "invalid email address `%s`" [AStr ""])).
Proof.
  rewrite (EmailList_first_invalid (fun e => negb (String.eqb e ""))
             "Bob <bob@example.com>,," true);
    [|vm_compute; reflexivity].
  vm_compute. reflexivity.
Defined.
